(** * A verification development for [pytensor.compile]

    The repository's [pytensor/compile/__init__.py] re-exports the
    function-compilation pipeline of pytensor (graph capture, rewrite
    database, destroy/alias analysis, reuse inference, deep-copy insertion,
    shared values).  The submodules implementing those names are not embedded
    here; each piece modelled after the specification of the pipeline is
    marked so in its doc comment. *)

From Stdlib Require Import List Arith Lia Bool Relations PeanoNat.
From Stdlib Require String Ascii Permutation.
Import ListNotations.

(** ** Graph model: an arena of nodes addressed by handle *)

Module FGraph.

(** A variable is a handle into the arena.  A handle either names a graph
    input (or constant) or the single output of an [Apply] node. *)
Inductive node : Type :=
| Input (k : nat)
| Apply (op : nat) (ins : list nat).

Definition graph := list node.

(** [edge g u v]: variable [u] is an input of the node producing [v]. *)
Definition edge (g : graph) (u v : nat) : Prop :=
  exists op ins, nth_error g v = Some (Apply op ins) /\ In u ins.

Definition reach_plus (g : graph) := clos_trans nat (edge g).

(** No variable depends on itself through a nonempty path. *)
Definition no_cycle (g : graph) : Prop := forall v, ~ reach_plus g v v.

(** Every input reference points to a node of the arena. *)
Definition closed (g : graph) : Prop :=
  forall v op ins, nth_error g v = Some (Apply op ins) ->
  forall u, In u ins -> u < length g.

(** Modelled from the spec: graph capture ([std_fgraph]).  A captured graph
    is built from symbolic variables that already exist when each operation
    is applied, so the creation order of the handles is a topological
    order: every input of a node has a smaller handle than the node. *)
Definition captured (g : graph) : Prop :=
  forall v op ins, nth_error g v = Some (Apply op ins) ->
  forall u, In u ins -> u < v.

Fixpoint capturedb_from (base : nat) (g : graph) : bool :=
  match g with
  | [] => true
  | Input _ :: g' => capturedb_from (S base) g'
  | Apply _ ins :: g' =>
      forallb (fun u => u <? base) ins && capturedb_from (S base) g'
  end.

Definition capturedb (g : graph) : bool := capturedb_from 0 g.

(** Well-founded dependency: every backward chain of inputs is finite. *)
Definition acyc (g : graph) : Prop := forall v, Acc (edge g) v.

(** Update of the arena at a handle; out of range, nothing changes. *)
Fixpoint set_nth {A} (l : list A) (n : nat) (x : A) : list A :=
  match l, n with
  | [], _ => []
  | _ :: l', 0 => x :: l'
  | y :: l', S n' => y :: set_nth l' n' x
  end.

End FGraph.

(** ** Rewriting: replacement of a subgraph by an equivalent one *)

Module Rewrite.
Import FGraph.

Definition redirect (old new x : nat) : nat := if x =? old then new else x.

Definition redirect_node (old new : nat) (n : node) : node :=
  match n with
  | Input k => Input k
  | Apply op ins => Apply op (map (redirect old new) ins)
  end.

(** Modelled from the spec: [FunctionGraph.replace(old, new)] on an arena.
    The replacement subgraph [fresh] is appended at handles
    [length g], [length g + 1], ...; every consumer of [old] is redirected
    to [new]; no handle is reused. *)
Definition replace (g : graph) (old new : nat) (fresh : list node) : graph :=
  map (redirect_node old new) g ++ fresh.

(** A rewrite replaces the subgraph computing [old]: the replacement reads
    only values that are available without [old]'s result, i.e. existing
    variables that do not depend on [old], or fresh nodes built before. *)
Definition available (g : graph) (old : nat) (base u : nat) : Prop :=
  (u < length g /\ ~ reach_plus g old u) \/ (length g <= u < base).

Definition valid_replacement (g : graph) (old new : nat) (fresh : list node)
  : Prop :=
  old < length g /\
  available g old (length g + length fresh) new /\
  forall k op ins, nth_error fresh k = Some (Apply op ins) ->
  forall u, In u ins -> available g old (length g + k) u.

(** One application of a rewrite (a match of some rewrite of a stage). *)
Definition rewrite_step (g g' : graph) : Prop :=
  exists old new fresh,
    valid_replacement g old new fresh /\ g' = replace g old new fresh.

(** Any sequence of rewrite-stage applications. *)
Definition rewrites := clos_refl_trans graph rewrite_step.

End Rewrite.

(** ** The merge stage ([OPT_MERGE]) *)

Module Merge.
Import FGraph.

Definition node_eq_dec : forall a b : node, {a = b} + {a <> b}.
Proof. decide equality; try apply list_eq_dec; apply Nat.eq_dec. Defined.

(** A function graph: the node arena and the declared outputs. *)
Record fgraph : Type := mkFGraph { nodes : graph; outputs : list nat }.

(** [v] belongs to the graph of [outs]: some declared output depends on it. *)
Definition reachable (g : graph) (outs : list nat) (v : nat) : Prop :=
  exists o, In o outs /\ clos_refl_trans nat (edge g) v o.

(** Modelled from the spec: the order in which a pass visits the graph
    ([fgraph.toposort()]): each variable of the graph (the handles of the
    arena the outputs depend on) exactly once, every node after the
    variables it reads. *)
Definition topo_order (fg : fgraph) (order : list nat) : Prop :=
  NoDup order /\
  (forall q v op ins u, nth_error order q = Some v ->
     nth_error (nodes fg) v = Some (Apply op ins) -> In u ins ->
     exists q', q' < q /\ nth_error order q' = Some u) /\
  (forall v, In v order <->
     reachable (nodes fg) (outputs fg) v /\ v < length (nodes fg)).

(** The state of a merge pass: the nodes kept so far, in visit order, the
    surviving node each visited handle stands for, and the arena with the
    inputs of the kept nodes redirected to their survivors. *)
Record mstate : Type := mkMState {
  kept : list nat;
  canon : nat -> nat;
  arena : graph
}.

Definition same_node (g : graph) (key : node) (s : nat) : bool :=
  match nth_error g s with
  | Some n => if node_eq_dec n key then true else false
  | None => false
  end.

(** Modelled from the spec: the visit of the node at handle [v].  Graph
    inputs are never merged; an application is keyed by its operation (with
    its attributes) and its inputs, already redirected to their survivors;
    when a kept node has the same key, it survives and [v] is merged into
    it, otherwise [v] is kept with its inputs redirected. *)
Definition merge_visit (st : mstate) (v : nat) : mstate :=
  match nth_error (arena st) v with
  | Some (Apply op ins) =>
      let key := Apply op (map (canon st) ins) in
      match find (same_node (arena st) key) (kept st) with
      | Some s =>
          mkMState (kept st) (fun x => if x =? v then s else canon st x) (arena st)
      | None => mkMState (kept st ++ [v]) (canon st) (set_nth (arena st) v key)
      end
  | Some (Input _) => mkMState (kept st ++ [v]) (canon st) (arena st)
  | None => st
  end.

(** Modelled from the spec: the merge stage ([MergeOptimizer]).  It visits
    the nodes in the order [order] and redirects every consumer (node inputs
    and declared outputs) to the surviving node; merged nodes stay in the
    arena without consumers, outside the graph of the outputs. *)
Definition merge (order : list nat) (fg : fgraph) : fgraph :=
  let st := fold_left merge_visit order (mkMState [] (fun x => x) (nodes fg)) in
  mkFGraph (arena st) (map (canon st) (outputs fg)).

(** Invariant of a merge pass over the graph [g], after visiting the
    handles [P]: the visited nodes are mapped to kept nodes with the same
    key, no two kept applications are equal, and kept nodes only read kept
    nodes (or handles outside the arena). *)
Definition merge_inv (g : graph) (P : list nat) (st : mstate) : Prop :=
  length (arena st) = length g /\
  (forall x, ~ In x P \/ length g <= x -> canon st x = x) /\
  (forall x, In x P -> x < length g -> In (canon st x) (kept st)) /\
  (forall s, In s (kept st) -> In s P /\ s < length g /\ canon st s = s) /\
  (forall v, ~ In v (kept st) -> nth_error (arena st) v = nth_error g v) /\
  (forall x op ins, In x P -> nth_error g x = Some (Apply op ins) ->
     nth_error (arena st) (canon st x) = Some (Apply op (map (canon st) ins))) /\
  (forall s1 s2 op ins, In s1 (kept st) -> In s2 (kept st) ->
     nth_error (arena st) s1 = Some (Apply op ins) ->
     nth_error (arena st) s2 = Some (Apply op ins) -> s1 = s2) /\
  (forall s op ins u, In s (kept st) -> nth_error (arena st) s = Some (Apply op ins) ->
     In u ins -> In u (kept st) \/ length g <= u).

End Merge.

(** ** Aliasing and destroy-map analysis *)

Module Alias.
Import FGraph.

(** The per-operation table: the input an output is a view of (view map),
    and the input an operation overwrites in place (destroy map). *)
Record optable : Type := mkOpTable {
  view_map : nat -> option nat;
  destroy_map : nat -> option nat
}.

(** Follows [parent] upwards at most [fuel] times. *)
Fixpoint chase (parent : nat -> option nat) (fuel v : nat) : nat :=
  match fuel with
  | 0 => v
  | S f =>
      match parent v with
      | Some a => chase parent f a
      | None => v
      end
  end.

Section WithTable.
Variable T : optable.

(** The variable whose storage [v] is a view of, if any. *)
Definition view_parent (g : graph) (v : nat) : option nat :=
  match nth_error g v with
  | Some (Apply op ins) =>
      match view_map T op with
      | Some i => nth_error ins i
      | None => None
      end
  | _ => None
  end.

(** [view_edge g a b]: [b] is a view of [a]. *)
Definition view_edge (g : graph) (a b : nat) : Prop := view_parent g b = Some a.

(** The transitive alias relation: sharing storage through any chain of
    views, in either direction. *)
Definition alias (g : graph) : nat -> nat -> Prop :=
  clos_refl_sym_trans nat (view_edge g).

(** Modelled from the spec: [alias_root], the variable owning the storage
    [v] is a view of, following view maps upwards; no chain of a graph
    without cycles has more steps than the arena has nodes. *)
Definition alias_root (g : graph) (v : nat) : nat :=
  chase (view_parent g) (length g) v.

(** Modelled from the spec: [view_tree_set], the alias set of [v]: every
    variable of the graph with the same storage owner. *)
Definition view_tree_set (g : graph) (v : nat) : list nat :=
  filter (fun w => alias_root g w =? alias_root g v) (seq 0 (length g)).

(** The variable whose storage the output of [v] occupies: the input it is a
    view of, or else the input it overwrites in place. *)
Definition storage_parent (g : graph) (v : nat) : option nat :=
  match nth_error g v with
  | Some (Apply op ins) =>
      match view_map T op with
      | Some i => nth_error ins i
      | None =>
          match destroy_map T op with
          | Some i => nth_error ins i
          | None => None
          end
      end
  | _ => None
  end.

Definition storage_edge (g : graph) (a b : nat) : Prop := storage_parent g b = Some a.

(** Sharing storage through any chain of views and in-place outputs. *)
Definition storage_alias (g : graph) : nat -> nat -> Prop :=
  clos_refl_sym_trans nat (storage_edge g).

(** Modelled from the spec: the owner of the storage of [v], following view
    maps and destroy maps upwards. *)
Definition storage_root (g : graph) (v : nat) : nat :=
  chase (storage_parent g) (length g) v.

(** Every variable of the graph sharing its storage with [v]. *)
Definition storage_set (g : graph) (v : nat) : list nat :=
  filter (fun w => storage_root g w =? storage_root g v) (seq 0 (length g)).

(** Does the node [c] read the variable [w]? *)
Definition consumesb (g : graph) (c w : nat) : bool :=
  match nth_error g c with
  | Some (Apply _ ins) => existsb (Nat.eqb w) ins
  | _ => false
  end.

(** The nodes scheduled strictly after position [p] have not run yet. *)
Definition requiredb (g : graph) (sched : list nat) (p w : nat) : bool :=
  existsb (fun c => consumesb g c w) (skipn (S p) sched).

(** Declarative reading: a consumer of [w] is scheduled after [p]. *)
Definition required (g : graph) (sched : list nat) (p w : nat) : Prop :=
  exists q c, p < q /\ nth_error sched q = Some c /\ edge g w c.

(** Modelled from the spec: legality of a destructive write on [v] by the
    node at position [p] of the schedule; [prot] is the set of variables
    registered with the [Supervisor] feature. *)
Definition destroy_legal (g : graph) (prot : nat -> bool) (sched : list nat)
    (p v : nat) : bool :=
  forallb (fun w => (w =? v) || negb (requiredb g sched p w)) (view_tree_set g v)
  && negb (prot v).

(** Modelled from the spec: [infer_reuse_pattern(node)] for the node at
    position [p].  An input is kept when no variable sharing its storage
    (through views or in-place outputs) is protected (the storage belongs to
    this execution) and none is read by a node that has not run yet or
    returned as an output. *)
Definition infer_reuse_pattern (g : graph) (prot : nat -> bool) (outs : list nat)
    (sched : list nat) (p : nat) : list nat :=
  match nth_error sched p with
  | Some c =>
      match nth_error g c with
      | Some (Apply _ ins) =>
          filter (fun x =>
            forallb (fun w => negb (prot w) && negb (requiredb g sched p w)
                              && negb (existsb (Nat.eqb w) outs))
                    (storage_set g x)) ins
      | _ => []
      end
  | None => []
  end.

(** Declarative reading of the reuse contract. *)
Definition uniquely_owned (g : graph) (prot : nat -> bool) (x : nat) : Prop :=
  forall w, storage_alias g w x -> prot w = false.

Definition alive_beyond (g : graph) (outs sched : list nat) (p x : nat) : Prop :=
  exists w, storage_alias g w x /\ (required g sched p w \/ In w outs).

End WithTable.
End Alias.

(** ** The compilation pipeline *)

Module Pipeline.
Import FGraph Alias.

Inductive error : Type :=
| AliasedMemoryError
| UnusedInputError.

Inductive warning : Type :=
| BudgetExceeded (stage : nat)
| UnusedInputWarning (x : nat).

(** Outcome of a compilation step: a value with the warnings reported on
    the way, or an error propagated to the caller. *)
Inductive result (A : Type) : Type :=
| Ok (a : A) (ws : list warning)
| Err (e : error).
Arguments Ok {A} a ws.
Arguments Err {A} e.

(** How a fgraph input is bound: a declared input, with its
    [borrow] (borrow-on-output-ok) and [mutable] flags, or the storage of a
    shared value. *)
Inductive in_kind : Type :=
| Declared (borrow mutable : bool)
| SharedIn.

Fixpoint kind_of (inputs : list (nat * in_kind)) (x : nat) : option in_kind :=
  match inputs with
  | [] => None
  | (h, k) :: rest => if h =? x then Some k else kind_of rest x
  end.

(** Modelled from the spec: the variables registered with [Supervisor]:
    declared inputs not marked mutable, and shared storage. *)
Definition protected (inputs : list (nat * in_kind)) (x : nat) : bool :=
  match kind_of inputs x with
  | Some (Declared _ false) | Some SharedIn => true
  | _ => false
  end.

Section WithTable.
Variable T : optable.

(** Modelled from the spec: the destructive-op-enabling stage.  The table
    [inplace_of] gives, for an operation with an in-place variant, that
    variant and the input it overwrites.  The variant is installed only when
    [infer_reuse_pattern], computed on the graph the stage receives, marks
    the overwritten input as safe. *)
Variable inplace_of : nat -> option (nat * nat).

Definition enable_node (g : graph) (prot : nat -> bool) (outs sched : list nat)
    (p : nat) (n : node) : node :=
  match n with
  | Apply op ins =>
      match inplace_of op with
      | Some (op', i) =>
          match nth_error ins i with
          | Some x =>
              if existsb (Nat.eqb x) (infer_reuse_pattern T g prot outs sched p)
              then Apply op' ins else n
          | None => n
          end
      | None => n
      end
  | Input k => Input k
  end.

Fixpoint enable_from (g0 g : graph) (prot : nat -> bool) (outs sched : list nat)
    (p : nat) (rest : list nat) : graph :=
  match rest with
  | [] => g
  | c :: rest' =>
      let g' := match nth_error g0 c with
                | Some n => set_nth g c (enable_node g0 prot outs sched p n)
                | None => g
                end in
      enable_from g0 g' prot outs sched (S p) rest'
  end.

Definition enable_inplace (g : graph) (prot : nat -> bool) (outs sched : list nat)
  : graph :=
  enable_from g g prot outs sched 0 sched.

(** A node changed by the in-place stage was enabled at one of its
    positions, on an input [infer_reuse_pattern] marked safe. *)
Definition enabled_ok (g : graph) (prot : nat -> bool) (outs sched : list nat)
    (c : nat) (n : node) : Prop :=
  exists p op op' i ins x,
    nth_error sched p = Some c /\ nth_error g c = Some (Apply op ins) /\
    inplace_of op = Some (op', i) /\ nth_error ins i = Some x /\
    In x (infer_reuse_pattern T g prot outs sched p) /\ n = Apply op' ins.

(** The destructive write requested by the node [c] run at position [p]. *)
Definition node_destroy_ok (g : graph) (prot : nat -> bool) (sched : list nat)
    (p c : nat) : bool :=
  match nth_error g c with
  | Some (Apply op ins) =>
      match destroy_map T op with
      | Some i =>
          match nth_error ins i with
          | Some x => destroy_legal T g prot sched p x
          | None => true
          end
      | None => true
      end
  | _ => true
  end.

Fixpoint destroy_ok_from (g : graph) (prot : nat -> bool) (sched : list nat)
    (p : nat) (rest : list nat) : bool :=
  match rest with
  | [] => true
  | c :: rest' => node_destroy_ok g prot sched p c && destroy_ok_from g prot sched (S p) rest'
  end.

(** Modelled from the spec: the aliasing analysis of a whole graph, under
    the execution order [sched] chosen for it. *)
Definition destroy_ok (g : graph) (prot : nat -> bool) (sched : list nat) : bool :=
  destroy_ok_from g prot sched 0 sched.

(** A rewrite stage: whether it may introduce destructive operations, and
    its run to fixpoint, which also tells whether the fixpoint was reached
    within the iteration budget. *)
Record stage : Type := mkStage {
  stage_destroys : bool;
  stage_run : graph -> graph * bool
}.

Variable schedule : graph -> list nat.
Variable prot : nat -> bool.

(** Modelled from the spec: the rewrite pipeline.  The aliasing analysis
    runs after each stage that may introduce destructive operations; a
    stage that does not converge within its budget yields a warning. *)
Fixpoint run_stages (stages : list stage) (i : nat) (g : graph) (ws : list warning)
  : result graph :=
  match stages with
  | [] => Ok g ws
  | s :: ss =>
      let '(g', converged) := stage_run s g in
      let ws' := if converged then ws else ws ++ [BudgetExceeded i] in
      if stage_destroys s && negb (destroy_ok g' prot (schedule g'))
      then Err AliasedMemoryError
      else run_stages ss (S i) g' ws'
  end.


(** The user-requested in-place operations of the captured graph are
    checked before the first stage. *)
Definition optimize (stages : list stage) (g : graph) : result graph :=
  if destroy_ok g prot (schedule g) then run_stages stages 0 g []
  else Err AliasedMemoryError.

End WithTable.
End Pipeline.

(** ** Protective copies, unused inputs and the compilation entry point *)

Module Compile.
Import FGraph Alias Pipeline.

Section WithTable.
Variable T : optable.
(** The operation identifier of [deep_copy_op] ([DeepCopyOp]). *)
Variable deep_copy_op : nat.

(** Modelled from the spec: an output needs a protective copy when the
    owner of its storage (through views and in-place outputs) is a declared
    input not marked borrow-on-output-ok, or the storage of a shared
    value. *)
Definition needs_copy (g : graph) (inputs : list (nat * in_kind)) (o : nat) : bool :=
  match kind_of inputs (storage_root T g o) with
  | Some (Declared false _) | Some SharedIn => true
  | _ => false
  end.

Fixpoint dc_outputs (g : graph) (inputs : list (nat * in_kind)) (base : nat)
    (outs : list nat) : list node * list nat :=
  match outs with
  | [] => ([], [])
  | o :: os =>
      if needs_copy g inputs o then
        let '(ns, hs) := dc_outputs g inputs (S base) os in
        (Apply deep_copy_op [o] :: ns, base :: hs)
      else
        let '(ns, hs) := dc_outputs g inputs base os in
        (ns, o :: hs)
  end.

(** Modelled from the spec: [insert_deepcopy].  Each output needing a copy
    is replaced by a new [deep_copy_op] node reading it. *)
Definition insert_deepcopy (g : graph) (inputs : list (nat * in_kind))
    (outs : list nat) : graph * list nat :=
  let '(ns, hs) := dc_outputs g inputs (length g) outs in (g ++ ns, hs).

(** [used g outs x]: some declared output depends on [x]. *)
Definition used (g : graph) (outs : list nat) (x : nat) : Prop :=
  exists o, In o outs /\ clos_refl_trans nat (edge g) x o.

Fixpoint usedb (g : graph) (outs : list nat) (fuel v : nat) : bool :=
  existsb (Nat.eqb v) outs ||
  match fuel with
  | 0 => false
  | S f => existsb (fun c => consumesb g c v && usedb g outs f c) (seq 0 (length g))
  end.

Inductive unused_policy : Type := Raise | Warn | Ignore.

Definition declared (inputs : list (nat * in_kind)) : list nat :=
  map fst (filter (fun '(_, k) => match k with Declared _ _ => true | SharedIn => false end)
                  inputs).

(** Modelled from the spec: the unused-input check of the compilation
    step, configured by the caller's [on_unused_input] policy. *)
Definition check_unused (policy : unused_policy) (g : graph)
    (inputs : list (nat * in_kind)) (outs : list nat) : result unit :=
  let unused := filter (fun x => negb (usedb g outs (length g) x)) (declared inputs) in
  match unused with
  | [] => Ok tt []
  | _ :: _ =>
      match policy with
      | Raise => Err UnusedInputError
      | Warn => Ok tt (map UnusedInputWarning unused)
      | Ignore => Ok tt []
      end
  end.

Record config : Type := mkConfig {
  cfg_graph : graph;
  cfg_inputs : list (nat * in_kind);
  cfg_outputs : list nat;
  cfg_on_unused : unused_policy
}.

Variable schedule : graph -> list nat.

(** Modelled from the spec: the compilation step ([orig_function] /
    [FunctionMaker]): unused-input check, rewrite pipeline with the aliasing
    analysis, then protective copies; every error reaches the caller. *)
Definition compile (stages : list stage) (cfg : config) : result (graph * list nat) :=
  let g := cfg_graph cfg in
  let inputs := cfg_inputs cfg in
  let outs := cfg_outputs cfg in
  match check_unused (cfg_on_unused cfg) g inputs outs with
  | Err e => Err e
  | Ok _ ws1 =>
      match optimize T schedule (protected inputs) stages g with
      | Err e => Err e
      | Ok g' ws2 => Ok (insert_deepcopy g' inputs outs) (ws1 ++ ws2)
      end
  end.

End WithTable.
End Compile.

(** ** Shared values and the call of a compiled function *)

Module Shared.
Import FGraph.

Section WithSem.
Variable V : Type.
(** The execution thunk of each operation. *)
Variable sem : nat -> list V -> V.
Variable dflt : V.

(** What a graph input ([Input k]) is bound to at call time: a positional
    argument, or the storage of a shared value. *)
Inductive src : Type :=
| FromArg (i : nat)
| FromShared (s : nat).

(** A compiled function: its graph, the binding of each graph input, its
    outputs, and the update of each shared value it owns (shared value,
    handle of the update expression). *)
Record fn : Type := mkFn {
  fn_graph : graph;
  fn_srcs : list src;
  fn_outputs : list nat;
  fn_updates : list (nat * nat)
}.

Definition input_value (f : fn) (store : nat -> V) (args : list V) (k : nat) : V :=
  match nth_error (fn_srcs f) k with
  | Some (FromArg i) => nth i args dflt
  | Some (FromShared s) => store s
  | None => dflt
  end.

(** Reference semantics: every variable evaluated in handle order, every
    shared value read from [store], the storage before the call. *)
Definition eval_node (iv : nat -> V) (acc : list V) (n : node) : V :=
  match n with
  | Input k => iv k
  | Apply op ins => sem op (map (fun u => nth u acc dflt) ins)
  end.

Fixpoint eval_arena (iv : nat -> V) (g : graph) (acc : list V) : list V :=
  match g with
  | [] => acc
  | n :: g' => eval_arena iv g' (acc ++ [eval_node iv acc n])
  end.

Definition value_pre (f : fn) (store : nat -> V) (args : list V) (v : nat) : V :=
  nth v (eval_arena (input_value f store args) (fn_graph f) []) dflt.

Fixpoint lookup_all (e : nat -> option V) (l : list nat) : option (list V) :=
  match l with
  | [] => Some []
  | x :: l' =>
      match e x, lookup_all e l' with
      | Some v, Some vs => Some (v :: vs)
      | _, _ => None
      end
  end.

(** Modelled from the spec: the linker's thunk runs the nodes in the order
    [sched] it chose, storing each result in the value storage [e]; graph
    inputs bound to shared values read the storage of the shared value. *)
Definition exec_node (f : fn) (store : nat -> V) (args : list V)
    (e : nat -> option V) (c : nat) : option V :=
  match nth_error (fn_graph f) c with
  | Some (Input k) => Some (input_value f store args k)
  | Some (Apply op ins) => option_map (sem op) (lookup_all e ins)
  | None => None
  end.

Fixpoint run (f : fn) (store : nat -> V) (args : list V) (e : nat -> option V)
    (sched : list nat) : option (nat -> option V) :=
  match sched with
  | [] => Some e
  | c :: rest =>
      match exec_node f store args e c with
      | Some v => run f store args (fun x => if x =? c then Some v else e x) rest
      | None => None
      end
  end.

Fixpoint commit (store : nat -> V) (ups : list (nat * V)) : nat -> V :=
  match ups with
  | [] => store
  | (s, v) :: rest => fun t => if t =? s then v else commit store rest t
  end.

(** Modelled from the spec: a call ([Function.__call__]).  The thunk runs
    to completion, the outputs are collected, and only then are the
    updated values written to the shared storage. *)
Definition call (f : fn) (sched : list nat) (store : nat -> V) (args : list V)
  : option (list V * (nat -> V)) :=
  match run f store args (fun _ => None) sched with
  | None => None
  | Some e =>
      match lookup_all e (fn_outputs f), lookup_all e (map snd (fn_updates f)) with
      | Some outs, Some ups => Some (outs, commit store (combine (map fst (fn_updates f)) ups))
      | _, _ => None
      end
  end.

(** An execution order a linker may choose: every node once scheduled,
    each after the nodes producing its inputs. *)
Definition valid_schedule (g : graph) (sched : list nat) : Prop :=
  (forall v, v < length g -> In v sched) /\
  (forall c, In c sched -> c < length g) /\
  (forall q c op ins u, nth_error sched q = Some c -> nth_error g c = Some (Apply op ins) ->
     In u ins -> exists q', q' < q /\ nth_error sched q' = Some u).

End WithSem.
End Shared.

(** ** The package namespace of [pytensor.compile] *)

Module Init.
Import String.StringSyntax.
Local Open Scope string_scope.

(** The [from M import a, b, ...] statements of
    [src/pytensor/compile/__init__.py], in order. *)
Definition init_py : list (String.string * list String.string) := [
  ("pytensor.compile.function.pfunc", ["pfunc"; "rebuild_collect_shared"]);
  ("pytensor.compile.function.types",
    ["AliasedMemoryError"; "Function"; "FunctionMaker"; "Supervisor";
     "UnusedInputError"; "alias_root"; "convert_function_input";
     "fgraph_updated_vars"; "get_info_on_inputs"; "infer_reuse_pattern";
     "insert_deepcopy"; "orig_function"; "std_fgraph"; "view_tree_set"]);
  ("pytensor.compile.io", ["In"; "Out"; "SymbolicInput"; "SymbolicOutput"]);
  ("pytensor.compile.mode",
    ["FAST_COMPILE"; "FAST_RUN"; "JAX"; "NUMBA"; "OPT_FAST_COMPILE"; "OPT_FAST_RUN";
     "OPT_FAST_RUN_STABLE"; "OPT_MERGE"; "OPT_NONE"; "OPT_O2"; "OPT_O3";
     "OPT_STABILIZE"; "OPT_UNSAFE"; "PYTORCH"; "AddDestroyHandler";
     "AddFeatureOptimizer"; "Mode"; "PrintCurrentFunctionGraph"; "get_default_mode";
     "get_mode"; "local_useless"; "optdb"; "predefined_linkers"; "predefined_modes";
     "predefined_optimizers"; "register_linker"; "register_mode"; "register_optimizer"]);
  ("pytensor.compile.monitormode", ["MonitorMode"]);
  ("pytensor.compile.ops",
    ["DeepCopyOp"; "FromFunctionOp"; "ViewOp"; "as_op"; "deep_copy_op";
     "register_deep_copy_op_c_code"; "register_view_op_c_code"; "view_op"]);
  ("pytensor.compile.profiling", ["ProfileStats"]);
  ("pytensor.compile.sharedvalue", ["SharedVariable"; "shared"; "shared_constructor"])
].

(** A module namespace: each bound name with the module and name it was
    imported from; the most recent binding comes first. *)
Definition namespace := list (String.string * (String.string * String.string)).

Fixpoint ns_lookup (ns : namespace) (n : String.string) : option (String.string * String.string) :=
  match ns with
  | [] => None
  | (n', b) :: rest => if String.eqb n' n then Some b else ns_lookup rest n
  end.

(** [from m import names]: fails (ImportError) unless [m] defines every
    name; otherwise binds each name in the importing namespace. *)
Definition exec_from_import (exports : String.string -> list String.string)
    (ns : namespace) (m : String.string) (names : list String.string) : option namespace :=
  if forallb (fun n => existsb (String.eqb n) (exports m)) names
  then Some (rev (map (fun n => (n, (m, n))) names) ++ ns)
  else None.

Fixpoint exec_module (exports : String.string -> list String.string) (ns : namespace)
    (stmts : list (String.string * list String.string)) : option namespace :=
  match stmts with
  | [] => Some ns
  | (m, names) :: rest =>
      match exec_from_import exports ns m names with
      | Some ns' => exec_module exports ns' rest
      | None => None
      end
  end.

(** The names the specification lists as part of the package surface. *)
Definition public_names : list String.string :=
  ["AliasedMemoryError"; "Function"; "FunctionMaker"; "Supervisor"; "UnusedInputError";
   "infer_reuse_pattern"; "insert_deepcopy"; "In"; "Out"; "Mode"; "get_mode"; "optdb";
   "predefined_modes"; "predefined_linkers"; "predefined_optimizers"; "register_mode";
   "register_linker"; "register_optimizer"; "MonitorMode"; "DeepCopyOp"; "ViewOp";
   "ProfileStats"; "SharedVariable"; "shared"].

Definition binding_eqb (b : option (String.string * String.string))
    (m n : String.string) : bool :=
  match b with
  | Some (m', n') => String.eqb m' m && String.eqb n' n
  | None => false
  end.

(** The namespace left by the statements when every import succeeds. *)
Fixpoint bind_all (ns : namespace) (stmts : list (String.string * list String.string))
  : namespace :=
  match stmts with
  | [] => ns
  | (m, names) :: rest => bind_all (rev (map (fun n => (n, (m, n))) names) ++ ns) rest
  end.

End Init.

(** ** How the import system executes [pytensor/compile/__init__.py]

    A finer model of the same statements [Init.init_py]: besides binding
    the imported names, importing a submodule of the package sets it as an
    attribute of the package ([importlib._bootstrap._find_and_load] does
    [setattr(parent_module, child, module)]), and the package's namespace
    is what [from pytensor.compile import *] reads. *)

Module Package.
Import String.StringSyntax Ascii.AsciiSyntax.
Local Open Scope string_scope.

(** An object bound in a module namespace: attribute [n] of module [m]
    (what [from m import n] binds), the module object of a submodule, or
    any other object (those the import system sets before the body runs,
    such as [__name__] or [__path__]). *)
Inductive value : Type :=
| Attr (m n : String.string)
| Submodule (m : String.string)
| Other (tag : String.string).

(** A module's [__dict__], the most recent binding first. *)
Definition namespace := list (String.string * value).

Fixpoint lookup (ns : namespace) (n : String.string) : option value :=
  match ns with
  | [] => None
  | (n', v) :: rest => if String.eqb n' n then Some v else lookup rest n
  end.

(** The package whose [__init__.py] runs. *)
Definition package : String.string := "pytensor.compile".

Fixpoint strip_prefix (p s : String.string) : option String.string :=
  match p, s with
  | String.EmptyString, _ => Some s
  | String.String a p', String.String b s' =>
      if Ascii.eqb a b then strip_prefix p' s' else None
  | _, _ => None
  end.

Fixpoint first_component (s : String.string) : String.string :=
  match s with
  | String.EmptyString => String.EmptyString
  | String.String c s' =>
      if Ascii.eqb c "." then String.EmptyString else String.String c (first_component s')
  end.

(** The submodule of [pkg] on the dotted path [m], if [m] lies inside
    [pkg]: importing [m] loads it and sets it on [pkg]. *)
Definition child_of (pkg m : String.string) : option String.string :=
  match strip_prefix (String.append pkg ".") m with
  | Some rest => Some (first_component rest)
  | None => None
  end.

Definition child_list (pkg m : String.string) : list String.string :=
  match child_of pkg m with Some c => [c] | None => [] end.

Definition submodule_binding (pkg c : String.string) : String.string * value :=
  (c, Submodule (String.append pkg (String.append "." c))).

(** [from m import names] in the body of [pkg/__init__.py].  [exports m]
    lists what module [m] provides; [loads m] lists the other submodules of
    [pkg] loaded while [m] is imported (their code is not embedded).
    Importing [m] first sets each loaded submodule of [pkg] on [pkg]; then
    [ImportError] is raised unless [m] provides every name, and otherwise
    each name is bound to [m]'s attribute.  Every binding of a submodule
    name holds the same module object, so their relative order does not
    matter. *)
Definition exec_from_import (exports loads : String.string -> list String.string)
    (pkg : String.string) (ns : namespace) (m : String.string)
    (names : list String.string) : option namespace :=
  if forallb (fun n => existsb (String.eqb n) (exports m)) names
  then Some (rev (map (fun n => (n, Attr m n)) names)
             ++ map (submodule_binding pkg) (child_list pkg m ++ loads m) ++ ns)
  else None.

Fixpoint exec_module (exports loads : String.string -> list String.string)
    (pkg : String.string) (ns : namespace)
    (stmts : list (String.string * list String.string)) : option namespace :=
  match stmts with
  | [] => Some ns
  | (m, names) :: rest =>
      match exec_from_import exports loads pkg ns m names with
      | Some ns' => exec_module exports loads pkg ns' rest
      | None => None
      end
  end.

(** A name [from M import *] takes when [M] defines no [__all__]. *)
Definition is_public (n : String.string) : bool :=
  match n with
  | String.String c _ => negb (Ascii.eqb c "_")
  | String.EmptyString => true
  end.

(** [from M import *] reads [M]'s namespace: when it binds [__all__], the
    names are those of that list's value, which is not modelled ([None]);
    otherwise every bound name that does not start with an underscore, with
    its binding. *)
Definition star_import (ns : namespace) : option (list (String.string * value)) :=
  match lookup ns "__all__" with
  | Some _ => None
  | None =>
      Some (flat_map (fun n => match lookup ns n with Some v => [(n, v)] | None => [] end)
                     (filter is_public (nodup String.string_dec (map fst ns))))
  end.

(** The (module, name) pairs the statements import, and the submodules of
    [pkg] they set on it. *)
Definition imports (stmts : list (String.string * list String.string))
  : list (String.string * String.string) :=
  flat_map (fun '(m, names) => map (fun n => (m, n)) names) stmts.

Definition submodules_of (pkg : String.string) (loads : String.string -> list String.string)
    (stmts : list (String.string * list String.string)) : list String.string :=
  flat_map (fun '(m, _) => child_list pkg m ++ loads m) stmts.

(** Boolean check that a list of names has no duplicate. *)
Fixpoint nodupb (l : list String.string) : bool :=
  match l with
  | [] => true
  | n :: rest => negb (existsb (String.eqb n) rest) && nodupb rest
  end.

(** The submodules of [pytensor.compile] on the paths [__init__.py]
    imports from. *)
Definition init_submodules : list String.string :=
  ["function"; "io"; "mode"; "monitormode"; "ops"; "profiling"; "sharedvalue"].

(** What the import system binds in a package's namespace before its
    [__init__.py] runs. *)
Definition package_dunders : namespace :=
  map (fun n => (n, Other n))
    ["__name__"; "__doc__"; "__package__"; "__loader__"; "__spec__"; "__path__";
     "__file__"; "__cached__"; "__builtins__"].

End Package.

(** ** Concrete scenarios *)

Module Scenarios.
Import FGraph.
Import String.StringSyntax.
Local Open Scope string_scope.

(** The graph of [(x * y) + 1], where [x * y] is rewritten to [y * x]. *)
Definition acyc_g0 : graph := [Input 0; Input 1; Apply 7 [0; 1]; Apply 8 [2]].
Definition acyc_g1 : graph :=
  Rewrite.replace acyc_g0 2 4 [Apply 7 [1; 0]].

(** Operation 1 is a view of its input 0; operations 2 and 3 read their
    inputs. *)
Definition view_table : Alias.optable :=
  Alias.mkOpTable (fun op => if op =? 1 then Some 0 else None)
                  (fun op => if op =? 2 then Some 0 else None).

(** [x]; [xv = view(x)]; [y = f(x)]; [z = h(xv)], run in handle order. *)
Definition alias_g : graph := [Input 0; Apply 1 [0]; Apply 2 [0]; Apply 3 [1]].

(** The scenario of the specification: [y = x + x] with [x] a declared
    input that is protected, and a temporary [t = x * x] used only by
    [u = t + t]; operation 4 (addition) has an in-place variant 5. *)
Definition reuse_g : graph := [Input 0; Apply 4 [0; 0]; Apply 6 [0; 0]; Apply 4 [2; 2]].

Definition reuse_inplace (op : nat) : option (nat * nat) :=
  if op =? 4 then Some (5, 0) else None.

(** [y = f(x)] overwrites the declared, non-mutable input [x]. *)
Definition inplace_cfg : Compile.config :=
  Compile.mkConfig [Input 0; Apply 2 [0]] [(0, Pipeline.Declared false false)] [1]
    Compile.Raise.

Definition handle_order (g : graph) : list nat := seq 0 (length g).

(** Two structurally identical applications [2] and [3] of operation 5 on
    [x], read by node [1] at a smaller handle, as rewrites leave them. *)
Definition merge_fg : Merge.fgraph :=
  Merge.mkFGraph [Input 0; Apply 6 [2; 3]; Apply 5 [0]; Apply 5 [0]] [1].

Definition merge_order : list nat := [0; 2; 3; 1].

(** The order of the graph the merge leaves: node [3] is merged away. *)
Definition merged_order : list nat := [0; 2; 1].

(** The captured graph: [x] (0), [v1 = view(x)] (1), [z = h(v1)] (2) and
    [y = k(x)] (3); operation 7 has the in-place variant 2. *)
Definition chain_g0 : graph := [Input 0; Apply 1 [0]; Apply 3 [1]; Apply 7 [0]].

(** After two rewrites: [v1] is replaced by the view of a view of [x]
    (handles 4 and 5), so [z] now reads a larger handle; [y] is replaced by
    its in-place variant (handle 6), which overwrites [x]. *)
Definition chain_g : graph :=
  Rewrite.replace (Rewrite.replace chain_g0 1 5 [Apply 1 [0]; Apply 1 [4]]) 3 6 [Apply 2 [0]].

(** The execution order chosen for the rewritten graph: the write on [x]
    (position 4) runs before [z] (position 5) reads its view. *)
Definition chain_order : list nat := [0; 1; 4; 5; 6; 2; 3].

(** A ranking of the handles of [chain_g] along its edges. *)
Definition chain_rank (v : nat) : nat := nth v [0; 1; 3; 1; 1; 2; 1] 0.



(** [x] is a declared input. *)
Definition copy_inputs : list (nat * Pipeline.in_kind) := [(0, Pipeline.Declared false false)].

(** Shared values [A] (0) and [B] (1); [A] is updated to [A + 1] and [B]
    to [A + B]; the function returns [A]. *)
Definition sum_sem (op : nat) (vs : list nat) : nat :=
  if op =? 0 then S (fold_right plus 0 vs) else fold_right plus 0 vs.

Definition shared_fn : Shared.fn :=
  Shared.mkFn [Input 0; Input 1; Apply 0 [0]; Apply 1 [0; 1]]
    [Shared.FromShared 0; Shared.FromShared 1] [0] [(0, 2); (1, 3)].

Definition shared_store (s : nat) : nat := if s =? 0 then 5 else 10.

(** Each submodule exports exactly the names imported from it. *)
Definition init_exports (m : String.string) : list String.string :=
  flat_map (fun '(m', names) => if String.eqb m' m then names else []) Init.init_py.

End Scenarios.

(** * Proofs *)

Module GraphFacts.
Import FGraph.

Lemma capturedb_from_spec : forall g base,
  capturedb_from base g = true ->
  forall v op ins, nth_error g v = Some (Apply op ins) ->
  forall u, In u ins -> u < base + v.
Proof.
  induction g as [|n g IH]; intros base Hb v op ins Hv u Hu.
  - destruct v; discriminate.
  - destruct v as [|v]; simpl in Hv.
    + inversion Hv; subst. simpl in Hb. apply andb_true_iff in Hb as [Hb _].
      rewrite forallb_forall in Hb. specialize (Hb u Hu).
      apply Nat.ltb_lt in Hb. lia.
    + assert (Hb' : capturedb_from (S base) g = true)
        by (destruct n; simpl in Hb; [exact Hb | apply andb_true_iff in Hb; tauto]).
      specialize (IH (S base) Hb' v op ins Hv u Hu). lia.
Qed.

Lemma capturedb_captured : forall g, capturedb g = true -> captured g.
Proof.
  intros g Hb v op ins Hv u Hu.
  pose proof (capturedb_from_spec g 0 Hb v op ins Hv u Hu). lia.
Qed.

Lemma nth_error_some_lt : forall {A} (l : list A) n x,
  nth_error l n = Some x -> n < length l.
Proof.
  intros A l n x H. apply nth_error_Some. congruence.
Qed.

Lemma captured_closed : forall g, captured g -> closed g.
Proof.
  intros g Hc v op ins Hv u Hu.
  pose proof (Hc v op ins Hv u Hu). pose proof (nth_error_some_lt _ _ _ Hv). lia.
Qed.

Lemma captured_reach_lt : forall g a b, captured g -> reach_plus g a b -> a < b.
Proof.
  intros g a b Hc H. induction H as [x y [op [ins [Hy Hx]]]|x y z _ IH1 _ IH2].
  - exact (Hc y op ins Hy x Hx).
  - lia.
Qed.

Lemma captured_acyc : forall g, captured g -> acyc g.
Proof.
  intros g Hc v. induction v as [v IH] using (well_founded_induction lt_wf).
  constructor. intros u [op [ins [Hv Hu]]]. apply IH. exact (Hc v op ins Hv u Hu).
Qed.

Lemma acc_no_self_loop : forall {A} (R : A -> A -> Prop) x,
  Acc R x -> ~ clos_trans A R x x.
Proof.
  intros A R x Hacc. induction Hacc as [x _ IH]. intros Hxx.
  apply clos_trans_tn1_iff in Hxx. inversion Hxx as [y Hy | y z Hy Hxy]; subst.
  - apply (IH x Hy). constructor. exact Hy.
  - apply (IH y Hy).
    apply t_trans with x; [constructor; exact Hy | apply clos_tn1_trans; exact Hxy].
Qed.

Lemma acyc_no_cycle : forall g, acyc g -> no_cycle g.
Proof. intros g H v. apply acc_no_self_loop, H. Qed.

Lemma nth_error_set_nth : forall {A} (l : list A) n x m,
  nth_error (set_nth l n x) m =
  if m =? n then match nth_error l m with Some _ => Some x | None => None end
  else nth_error l m.
Proof.
  intros A l. induction l as [|y l IH]; intros n x m.
  - destruct n, m; simpl; try reflexivity. destruct (m =? n); reflexivity.
  - destruct n as [|n], m as [|m]; simpl; try reflexivity. apply IH.
Qed.

Lemma length_set_nth : forall {A} (l : list A) n x, length (set_nth l n x) = length l.
Proof.
  intros A l. induction l as [|y l IH]; intros [|n] x; simpl; try reflexivity.
  rewrite IH. reflexivity.
Qed.

Lemma set_nth_same : forall {A} (l : list A) n x,
  nth_error l n = Some x -> set_nth l n x = l.
Proof.
  intros A l. induction l as [|y l IH]; intros [|n] x H; simpl in *; try discriminate.
  - inversion H; reflexivity.
  - rewrite (IH n x H). reflexivity.
Qed.

(** A set containing the outputs and closed under taking inputs contains
    every variable the outputs depend on. *)
Lemma reach_closed : forall g outs (Q : nat -> Prop),
  (forall o, In o outs -> Q o) ->
  (forall c op ins u, Q c -> nth_error g c = Some (Apply op ins) -> In u ins -> Q u) ->
  forall v o, In o outs -> clos_refl_trans nat (edge g) v o -> Q v.
Proof.
  intros g outs Q Ho Hs v o Hin Hr. apply clos_rt_rt1n in Hr.
  induction Hr as [x|x y z [op [ins [Hy Hx]]] _ IH].
  - apply Ho, Hin.
  - exact (Hs y op ins x (IH Hin) Hy Hx).
Qed.

(** A ranking of the handles that grows along every edge proves the graph
    free of cycles. *)
Lemma acyc_of_rank : forall g (r : nat -> nat),
  (forall v op ins u, nth_error g v = Some (Apply op ins) -> In u ins -> r u < r v) ->
  acyc g.
Proof.
  intros g r Hr v. remember (r v) as n eqn:En. revert v En.
  induction n as [n IH] using (well_founded_induction lt_wf). intros v En.
  constructor. intros u [op [ins [Hv Hu]]]. apply (IH (r u)); [|reflexivity].
  subst n. exact (Hr v op ins u Hv Hu).
Qed.

Lemma acyc_of_rank_check : forall g (r : nat -> nat),
  forallb (fun v => match nth_error g v with
                    | Some (Apply _ ins) => forallb (fun u => r u <? r v) ins
                    | _ => true
                    end) (seq 0 (length g)) = true ->
  acyc g.
Proof.
  intros g r H. apply (acyc_of_rank g r). intros v op ins u Hv Hu.
  rewrite forallb_forall in H. specialize (H v).
  rewrite in_seq, Hv in H. pose proof (nth_error_some_lt _ _ _ Hv).
  specialize (H ltac:(lia)). rewrite forallb_forall in H.
  apply Nat.ltb_lt, H, Hu.
Qed.

Lemma closed_check : forall g,
  forallb (fun v => match nth_error g v with
                    | Some (Apply _ ins) => forallb (fun u => u <? length g) ins
                    | _ => true
                    end) (seq 0 (length g)) = true ->
  closed g.
Proof.
  intros g H v op ins Hv u Hu.
  rewrite forallb_forall in H. specialize (H v).
  rewrite in_seq, Hv in H. pose proof (nth_error_some_lt _ _ _ Hv).
  specialize (H ltac:(lia)). rewrite forallb_forall in H.
  apply Nat.ltb_lt, H, Hu.
Qed.

End GraphFacts.

Module RewriteFacts.
Import FGraph Rewrite GraphFacts.

Section Step.
Variables (g : graph) (old new : nat) (fresh : list node).
Let g' := replace g old new fresh.
Let L := length g.

Lemma replace_nth_lt : forall v, v < L ->
  nth_error g' v = option_map (redirect_node old new) (nth_error g v).
Proof.
  intros v Hv. unfold g', replace. rewrite nth_error_app1 by (rewrite length_map; exact Hv).
  apply nth_error_map.
Qed.

Lemma replace_nth_ge : forall k, nth_error g' (L + k) = nth_error fresh k.
Proof.
  intros k. unfold g', replace, L. rewrite nth_error_app2 by (rewrite length_map; lia).
  rewrite length_map. f_equal. lia.
Qed.

Lemma replace_length : length g' = L + length fresh.
Proof. unfold g', replace, L. rewrite length_app, length_map. reflexivity. Qed.

Lemma replace_edge_lt : forall u v, v < L -> edge g' u v ->
  (u <> old /\ edge g u v) \/ (u = new /\ edge g old v).
Proof.
  intros u v Hv [op [ins [Hn Hu]]]. rewrite replace_nth_lt in Hn by exact Hv.
  destruct (nth_error g v) as [[k|op0 ins0]|] eqn:E; simpl in Hn; try discriminate.
  inversion Hn; subst. apply in_map_iff in Hu as [x [Hx Hin]]. unfold redirect in Hx.
  destruct (x =? old) eqn:Ex.
  - apply Nat.eqb_eq in Ex. subst. right. split; [reflexivity|]. exists op, ins0. auto.
  - apply Nat.eqb_neq in Ex. subst. left. split; [exact Ex|]. exists op, ins0. auto.
Qed.

Lemma replace_edge_ge : forall u k, edge g' u (L + k) ->
  exists op ins, nth_error fresh k = Some (Apply op ins) /\ In u ins.
Proof.
  intros u k [op [ins [Hn Hu]]]. rewrite replace_nth_ge in Hn. eauto.
Qed.

Hypothesis Hclosed : closed g.
Hypothesis Hacyc : acyc g.
Hypothesis Hvalid : valid_replacement g old new fresh.

Lemma replace_closed : closed g'.
Proof.
  destruct Hvalid as [Hold [Hnew Hfresh]].
  intros v op ins Hn u Hu. rewrite replace_length.
  destruct (Nat.lt_ge_cases v L) as [Hv|Hv].
  - assert (He : edge g' u v) by (exists op, ins; auto).
    destruct (replace_edge_lt u v Hv He) as [[_ [op1 [ins1 [H1 H2]]]]|[-> _]].
    + pose proof (Hclosed v op1 ins1 H1 u H2). unfold L in *. lia.
    + destruct Hnew as [[? _]|[_ ?]]; unfold L in *; lia.
  - replace v with (L + (v - L)) in Hn by lia. rewrite replace_nth_ge in Hn.
    pose proof (nth_error_some_lt _ _ _ Hn).
    destruct (Hfresh _ _ _ Hn u Hu) as [[? _]|[_ ?]]; unfold L in *; lia.
Qed.

(** Variables that do not depend on [old] keep their finite history. *)
Lemma acc_independent : forall u, u < L -> ~ reach_plus g old u -> Acc (edge g') u.
Proof.
  intros u. induction (Hacyc u) as [u _ IH]. intros Hu Hind. constructor. intros w Hw.
  destruct (replace_edge_lt w u Hu Hw) as [[Hne He]|[-> He]].
  - destruct He as [op [ins [Hn Hin]]].
    apply IH.
    + exists op, ins. auto.
    + exact (Hclosed u op ins Hn w Hin).
    + intros Hr. apply Hind. apply t_trans with w; [exact Hr|constructor; exists op, ins; auto].
  - exfalso. apply Hind. constructor. exact He.
Qed.

Lemma acc_fresh : forall k, Acc (edge g') (L + k).
Proof.
  destruct Hvalid as [_ [_ Hfresh]].
  intros k. induction k as [k IH] using (well_founded_induction lt_wf).
  constructor. intros w Hw. destruct (replace_edge_ge w k Hw) as [op [ins [Hn Hin]]].
  destruct (Hfresh k op ins Hn w Hin) as [[Hlt Hind]|[Hge Hlt]].
  - exact (acc_independent w Hlt Hind).
  - replace w with (L + (w - L)) by (unfold L; lia). apply IH. unfold L in *; lia.
Qed.

Lemma acc_new : Acc (edge g') new.
Proof.
  destruct Hvalid as [_ [Hnew _]].
  destruct Hnew as [[Hlt Hind]|[Hge _]].
  - exact (acc_independent new Hlt Hind).
  - replace new with (L + (new - L)) by (unfold L; lia). apply acc_fresh.
Qed.

Lemma replace_acyc : acyc g'.
Proof.
  intros v. destruct (Nat.lt_ge_cases v L) as [Hv|Hv].
  - revert Hv. induction (Hacyc v) as [v _ IH]. intros Hv. constructor. intros w Hw.
    destruct (replace_edge_lt w v Hv Hw) as [[Hne He]|[-> He]].
    + destruct He as [op [ins [Hn Hin]]]. apply IH.
      * exists op, ins. auto.
      * exact (Hclosed v op ins Hn w Hin).
    + exact acc_new.
  - replace v with (L + (v - L)) by lia. apply acc_fresh.
Qed.

End Step.

Lemma rewrites_invariant : forall g g', rewrites g g' ->
  closed g /\ acyc g -> closed g' /\ acyc g'.
Proof.
  intros g g' H. induction H as [g g' [old [new [fresh [Hv ->]]]]| |]; intros [Hc Ha].
  - split; [apply replace_closed|apply replace_acyc]; assumption.
  - split; assumption.
  - auto.
Qed.

End RewriteFacts.

Module MergeFacts.
Import FGraph GraphFacts Merge.

Lemma same_node_true : forall g key s, same_node g key s = true -> nth_error g s = Some key.
Proof.
  intros g key s H. unfold same_node in H.
  destruct (nth_error g s) as [n|]; [|discriminate].
  destruct (node_eq_dec n key) as [->|]; [reflexivity|discriminate].
Qed.

Lemma same_node_refl : forall g key s, nth_error g s = Some key -> same_node g key s = true.
Proof.
  intros g key s H. unfold same_node. rewrite H.
  destruct (node_eq_dec key key); [reflexivity|congruence].
Qed.

Ltac split8 :=
  refine (conj _ (conj _ (conj _ (conj _ (conj _ (conj _ (conj _ _))))))).

Lemma merge_inv_nil : forall g, merge_inv g [] (mkMState [] (fun x => x) g).
Proof.
  intros g. unfold merge_inv; simpl. split8; intros; solve [contradiction | reflexivity].
Qed.

(** Visiting one more node keeps the invariant, when the node was not
    visited yet and the nodes it reads were. *)
Lemma visit_inv : forall g P st v,
  merge_inv g P st -> ~ In v P ->
  (forall op ins u, nth_error g v = Some (Apply op ins) -> In u ins -> In u P) ->
  (forall x op ins u, In x P -> nth_error g x = Some (Apply op ins) -> In u ins -> In u P) ->
  merge_inv g (P ++ [v]) (merge_visit st v).
Proof.
  intros g P st v [Hlen [H1 [H2 [H3 [H4 [H5 [H6 H7]]]]]]] HvP Hvin HPin.
  assert (HinP : forall x, In x (P ++ [v]) -> In x P \/ x = v).
  { intros x Hx. apply in_app_or in Hx as [Hx|[Hx|[]]]; auto. }
  assert (HnotP : forall x, ~ In x (P ++ [v]) -> ~ In x P /\ x <> v).
  { intros x Hx. split; intros C; apply Hx, in_or_app; [left|right; left]; auto. }
  assert (HvK : ~ In v (kept st)) by (intros C; apply HvP, (H3 v C)).
  unfold merge_visit.
  destruct (Nat.lt_ge_cases v (length g)) as [Hv|Hv].
  2:{ assert (Hn : nth_error (arena st) v = None) by (apply nth_error_None; lia).
      rewrite Hn. unfold merge_inv; simpl; split8.
      - exact Hlen.
      - intros x [Hx|Hx]; apply H1; [left; apply HnotP, Hx|right; exact Hx].
      - intros x Hx Hxl. destruct (HinP x Hx) as [Hx'| ->]; [apply H2; assumption|lia].
      - intros s Hs. destruct (H3 s Hs) as [A [B C]].
        split; [apply in_or_app; left; exact A|split; assumption].
      - exact H4.
      - intros x op ins Hx Hg. destruct (HinP x Hx) as [Hx'| ->]; [apply H5; assumption|].
        apply nth_error_None in Hv. congruence.
      - exact H6.
      - exact H7. }
  rewrite (H4 v HvK).
  destruct (nth_error g v) as [[k|op ins]|] eqn:Eg.
  3:{ apply nth_error_None in Eg. lia. }
  - (* a graph input is kept *)
    unfold merge_inv; simpl; split8.
    + exact Hlen.
    + intros x [Hx|Hx]; apply H1; [left; apply HnotP, Hx|right; exact Hx].
    + intros x Hx Hxl. apply in_or_app. destruct (HinP x Hx) as [Hx'| ->].
      * left. apply H2; assumption.
      * right. left. symmetry. apply H1. left. exact HvP.
    + intros s Hs. apply in_app_or in Hs as [Hs|[<-|[]]].
      * destruct (H3 s Hs) as [A [B C]].
        split; [apply in_or_app; left; exact A|split; assumption].
      * split; [apply in_or_app; right; left; reflexivity|split; [exact Hv|]].
        apply H1. left. exact HvP.
    + intros w Hw. apply H4. intros C. apply Hw, in_or_app. left. exact C.
    + intros x op ins Hx Hg. destruct (HinP x Hx) as [Hx'| ->]; [apply H5; assumption|].
      congruence.
    + intros s1 s2 op ins Hs1 Hs2 E1 E2.
      apply in_app_or in Hs1 as [Hs1|[<-|[]]]; apply in_app_or in Hs2 as [Hs2|[<-|[]]].
      * apply (H6 s1 s2 op ins); assumption.
      * rewrite (H4 v HvK) in E2. congruence.
      * rewrite (H4 v HvK) in E1. congruence.
      * reflexivity.
    + intros s op ins u Hs E Hu. apply in_app_or in Hs as [Hs|[<-|[]]].
      * destruct (H7 s op ins u Hs E Hu) as [Hk|Hk]; [left; apply in_or_app; left|right]; auto.
      * rewrite (H4 v HvK) in E. congruence.
  - (* an application: merged into a kept node with the same key, or kept *)
    assert (Hins : forall u, In u ins -> In u P) by (intros u; apply (Hvin op ins u eq_refl)).
    assert (Hmap : forall c', (forall u, u <> v -> c' u = canon st u) ->
              forall x op' ins', In x P -> nth_error g x = Some (Apply op' ins') ->
              map c' ins' = map (canon st) ins').
    { intros c' Hc' x op' ins' Hx Hg. apply map_ext_in. intros u Hu. apply Hc'.
      intros ->. apply HvP, (HPin x op' ins' v Hx Hg Hu). }
    destruct (find (same_node (arena st) (Apply op (map (canon st) ins))) (kept st))
      as [s|] eqn:Ef.
    + apply find_some in Ef as [Hs Hsame]. apply same_node_true in Hsame.
      unfold merge_inv; simpl; split8.
      * exact Hlen.
      * intros x Hx. assert (Hxv : x <> v) by (destruct Hx as [Hx|Hx];
          [apply HnotP, Hx|lia]).
        apply Nat.eqb_neq in Hxv. rewrite Hxv. apply H1.
        destruct Hx as [Hx|Hx]; [left; apply HnotP, Hx|right; exact Hx].
      * intros x Hx Hxl. destruct (HinP x Hx) as [Hx'| ->].
        -- assert (Hxv : x <> v) by (intros ->; contradiction).
           apply Nat.eqb_neq in Hxv. rewrite Hxv. apply H2; assumption.
        -- rewrite Nat.eqb_refl. exact Hs.
      * intros s' Hs'. destruct (H3 s' Hs') as [A [B C]].
        split; [apply in_or_app; left; exact A|split; [exact B|]].
        assert (Hs'v : s' <> v) by (intros ->; contradiction).
        apply Nat.eqb_neq in Hs'v. rewrite Hs'v. exact C.
      * exact H4.
      * intros x op' ins' Hx Hg. destruct (HinP x Hx) as [Hx'| ->].
        -- assert (Hxv : x <> v) by (intros ->; contradiction).
           apply Nat.eqb_neq in Hxv as Hxv'. rewrite Hxv'.
           rewrite (Hmap (fun x => if x =? v then s else canon st x)) with (x := x) (op' := op')
             by (try assumption; intros u Hu; apply Nat.eqb_neq in Hu; rewrite Hu; reflexivity).
           apply H5; assumption.
        -- rewrite Nat.eqb_refl. rewrite Eg in Hg. inversion Hg; subst op' ins'.
           rewrite Hsame. f_equal. f_equal. apply map_ext_in. intros u Hu.
           assert (Huv : u <> v) by (intros ->; apply HvP, Hins, Hu).
           apply Nat.eqb_neq in Huv. rewrite Huv. reflexivity.
      * exact H6.
      * exact H7.
    + pose proof (find_none _ _ Ef) as Hnone. simpl.
      set (key := Apply op (map (canon st) ins)) in *.
      assert (Ha : forall w, w <> v -> nth_error (set_nth (arena st) v key) w = nth_error (arena st) w).
      { intros w Hw. rewrite nth_error_set_nth. apply Nat.eqb_neq in Hw. rewrite Hw. reflexivity. }
      assert (Hav : nth_error (set_nth (arena st) v key) v = Some key).
      { rewrite nth_error_set_nth, Nat.eqb_refl, (H4 v HvK), Eg. reflexivity. }
      assert (HKv : forall s, In s (kept st) -> s <> v) by (intros s Hs ->; contradiction).
      unfold merge_inv; simpl; split8.
      * rewrite length_set_nth. exact Hlen.
      * intros x [Hx|Hx]; apply H1; [left; apply HnotP, Hx|right; exact Hx].
      * intros x Hx Hxl. apply in_or_app. destruct (HinP x Hx) as [Hx'| ->].
        -- left. apply H2; assumption.
        -- right. left. symmetry. apply H1. left. exact HvP.
      * intros s Hs. apply in_app_or in Hs as [Hs|[<-|[]]].
        -- destruct (H3 s Hs) as [A [B C]].
           split; [apply in_or_app; left; exact A|split; assumption].
        -- split; [apply in_or_app; right; left; reflexivity|split; [exact Hv|]].
           apply H1. left. exact HvP.
      * intros w Hw. assert (Hwv : w <> v) by (intros ->; apply Hw, in_or_app; right; left; reflexivity).
        rewrite (Ha w Hwv). apply H4. intros C. apply Hw, in_or_app. left. exact C.
      * intros x op' ins' Hx Hg. destruct (HinP x Hx) as [Hx'| ->].
        -- pose proof (nth_error_some_lt _ _ _ Hg) as Hxl.
           rewrite (Ha _ (HKv _ (H2 x Hx' Hxl))). apply H5; assumption.
        -- rewrite Eg in Hg. inversion Hg; subst op' ins'.
           rewrite (H1 v (or_introl HvP)). exact Hav.
      * intros s1 s2 op' ins' Hs1 Hs2 E1 E2.
        apply in_app_or in Hs1 as [Hs1|[<-|[]]]; apply in_app_or in Hs2 as [Hs2|[<-|[]]].
        -- rewrite (Ha _ (HKv _ Hs1)) in E1. rewrite (Ha _ (HKv _ Hs2)) in E2.
           apply (H6 s1 s2 op' ins'); assumption.
        -- rewrite (Ha _ (HKv _ Hs1)) in E1. rewrite Hav in E2.
           rewrite <- E2 in E1. apply same_node_refl in E1.
           rewrite (Hnone s1 Hs1) in E1. discriminate.
        -- rewrite (Ha _ (HKv _ Hs2)) in E2. rewrite Hav in E1.
           rewrite <- E1 in E2. apply same_node_refl in E2.
           rewrite (Hnone s2 Hs2) in E2. discriminate.
        -- reflexivity.
      * intros s op' ins' u Hs E Hu. apply in_app_or in Hs as [Hs|[<-|[]]].
        -- rewrite (Ha _ (HKv _ Hs)) in E.
           destruct (H7 s op' ins' u Hs E Hu) as [Hk|Hk]; [left; apply in_or_app; left|right]; auto.
        -- rewrite Hav in E. inversion E; subst op' ins'. clear E.
           apply in_map_iff in Hu as [y [<- Hy]].
           destruct (Nat.lt_ge_cases y (length g)) as [Hyl|Hyl].
           ++ left. apply in_or_app. left. apply H2; [apply Hins, Hy|exact Hyl].
           ++ right. rewrite (H1 y (or_intror Hyl)). exact Hyl.
Qed.

Section Pass.
Variable g : graph.
Variable order : list nat.
Hypothesis Hnd : NoDup order.
Hypothesis Htopo : forall q v op ins u, nth_error order q = Some v ->
  nth_error g v = Some (Apply op ins) -> In u ins ->
  exists q', q' < q /\ nth_error order q' = Some u.

Lemma prefix_closed : forall P rest, order = P ++ rest ->
  forall x op ins u, In x P -> nth_error g x = Some (Apply op ins) -> In u ins -> In u P.
Proof.
  intros P rest Ho x op ins u Hx Hg Hu.
  apply In_nth_error in Hx as [q Hq]. pose proof (nth_error_some_lt _ _ _ Hq) as Hql.
  assert (Hoq : nth_error order q = Some x) by (rewrite Ho, nth_error_app1; assumption).
  destruct (Htopo q x op ins u Hoq Hg Hu) as [q' [Hq' Hu']].
  rewrite Ho, nth_error_app1 in Hu' by lia. apply nth_error_In in Hu'. exact Hu'.
Qed.

Lemma fold_inv : forall P rest, order = P ++ rest ->
  merge_inv g P (fold_left merge_visit P (mkMState [] (fun x => x) g)).
Proof.
  intros P. induction P as [|v P IH] using rev_ind; intros rest Ho.
  - apply merge_inv_nil.
  - rewrite fold_left_app. simpl. rewrite <- app_assoc in Ho. simpl in Ho.
    apply visit_inv.
    + apply (IH (v :: rest) Ho).
    + rewrite Ho in Hnd. apply NoDup_remove_2 in Hnd. intros C. apply Hnd, in_or_app. left. exact C.
    + intros op ins u Hg Hu.
      assert (Hov : nth_error order (length P) = Some v)
        by (rewrite Ho, nth_error_app2, Nat.sub_diag by lia; reflexivity).
      destruct (Htopo _ _ op ins u Hov Hg Hu) as [q' [Hq' Hu']].
      rewrite Ho, nth_error_app1 in Hu' by lia. apply nth_error_In in Hu'. exact Hu'.
    + apply (prefix_closed P (v :: rest) Ho).
Qed.

End Pass.

(** A second pass over nodes that are all kept, pairwise distinct
    applications, changes nothing. *)
Lemma pass_stable : forall g1 K,
  (forall s1 s2 op ins, In s1 K -> In s2 K ->
     nth_error g1 s1 = Some (Apply op ins) -> nth_error g1 s2 = Some (Apply op ins) -> s1 = s2) ->
  forall order st, (forall v, In v order -> In v K) -> (forall x, canon st x = x) ->
  arena st = g1 -> (forall s, In s (kept st) -> In s K) ->
  (forall x, canon (fold_left merge_visit order st) x = x) /\
  arena (fold_left merge_visit order st) = g1.
Proof.
  intros g1 K Hd order. induction order as [|v order IH]; intros st Ho Hid Ha Hk.
  - simpl. auto.
  - simpl. assert (HvK : In v K) by (apply Ho; left; reflexivity).
    assert (Ho' : forall w, In w order -> In w K) by (intros w Hw; apply Ho; right; exact Hw).
    remember (merge_visit st v) as st' eqn:Est. unfold merge_visit in Est. rewrite Ha in Est.
    destruct (nth_error g1 v) as [[k|op ins]|] eqn:E.
    + subst st'. apply IH; simpl; auto.
      intros s Hs. apply in_app_or in Hs as [Hs|[<-|[]]]; auto.
    + assert (Hm : map (canon st) ins = ins)
        by (rewrite (map_ext (canon st) (fun x => x) Hid); apply map_id).
      rewrite Hm in Est.
      destruct (find (same_node g1 (Apply op ins)) (kept st)) as [s|] eqn:Ef.
      * apply find_some in Ef as [Hs Hsame]. apply same_node_true in Hsame.
        assert (s = v) by (apply (Hd s v op ins); auto). subst s st'.
        apply IH; simpl; auto.
        intros x. destruct (x =? v) eqn:Ex; [apply Nat.eqb_eq in Ex; auto|apply Hid].
      * subst st'. apply IH; simpl; auto.
        -- apply set_nth_same. exact E.
        -- intros s Hs. apply in_app_or in Hs as [Hs|[<-|[]]]; auto.
    + subst st'. apply IH; auto.
Qed.

End MergeFacts.



Module AliasFacts.
Import FGraph Alias GraphFacts.

(** Chasing a parent function whose steps follow the edges of the graph. *)
Section Chase.
Variable g : graph.
Variable P : nat -> option nat.
Hypothesis HP : forall b a, P b = Some a -> edge g a b.

Lemma parent_lt : forall b a, P b = Some a -> b < length g.
Proof.
  intros b a H. destruct (HP b a H) as [op [ins [Hb _]]]. exact (nth_error_some_lt _ _ _ Hb).
Qed.

Lemma chase_none : forall f v, P v = None -> chase P f v = v.
Proof. intros [|f] v H; simpl; [reflexivity|]. rewrite H. reflexivity. Qed.

Lemma chase_stable : forall f v, P (chase P f v) = None ->
  forall k, chase P (f + k) v = chase P f v.
Proof.
  induction f as [|f IH]; intros v H k; simpl in *.
  - apply chase_none, H.
  - destruct (P v) as [a|] eqn:E; [apply IH, H|reflexivity].
Qed.

(** A chase that has not reached a root after [f] steps visited [S f]
    distinct variables, each with a parent. *)
Lemma chase_long : acyc g -> forall f v, P (chase P f v) <> None ->
  exists l, length l = S f /\ NoDup l /\
    (forall x, In x l -> P x <> None /\ clos_refl_trans nat (edge g) x v).
Proof.
  intros Hac. induction f as [|f IH]; intros v H; simpl in H.
  - exists [v]. split; [reflexivity|]. split; [constructor; [intros []|constructor]|].
    intros x [<-|[]]. split; [exact H|apply rt_refl].
  - destruct (P v) as [a|] eqn:E; [|congruence].
    destruct (IH a H) as [l [Hl [Hnd Hall]]].
    exists (v :: l). split; [simpl; lia|]. split.
    + constructor; [|exact Hnd]. intros Hin. destruct (Hall v Hin) as [_ Hr].
      apply (acyc_no_cycle g Hac v).
      apply clos_rt_t with a; [exact Hr|apply t_step, HP, E].
    + intros x [<-|Hx]; [split; [congruence|apply rt_refl]|].
      destruct (Hall x Hx) as [Hp Hr]. split; [exact Hp|].
      apply rt_trans with a; [exact Hr|apply rt_step, HP, E].
Qed.

(** [length g] steps always reach a root. *)
Lemma chase_root : acyc g -> forall v, P (chase P (length g) v) = None.
Proof.
  intros Hac v. destruct (P (chase P (length g) v)) eqn:E; [|reflexivity]. exfalso.
  destruct (chase_long Hac (length g) v) as [l [Hl [Hnd Hall]]]; [congruence|].
  assert (Hincl : incl l (seq 0 (length g))).
  { intros x Hx. apply in_seq. destruct (Hall x Hx) as [Hp _].
    destruct (P x) as [a|] eqn:Ea; [|congruence]. pose proof (parent_lt x a Ea). lia. }
  pose proof (NoDup_incl_length Hnd Hincl) as Hle. rewrite length_seq in Hle. lia.
Qed.

Lemma chase_step : acyc g -> forall b a, P b = Some a ->
  chase P (length g) b = chase P (length g) a.
Proof.
  intros Hac b a H. pose proof (parent_lt b a H) as Hb. pose proof (chase_root Hac b) as Hr.
  revert Hr Hb. generalize (length g). intros [|L] Hr Hb; [lia|].
  simpl in Hr. rewrite H in Hr.
  transitivity (chase P L a); [simpl; rewrite H; reflexivity|].
  rewrite <- Nat.add_1_r. symmetry. apply chase_stable. exact Hr.
Qed.

Lemma chase_to : forall f x,
  clos_refl_sym_trans nat (fun a b => P b = Some a) (chase P f x) x.
Proof.
  intros f. induction f as [|f IH]; intros x; simpl; [apply rst_refl|].
  destruct (P x) as [a|] eqn:E; [|apply rst_refl].
  apply rst_trans with a; [apply IH|apply rst_step; exact E].
Qed.

(** Sharing a root is exactly being connected by parent steps. *)
Lemma chase_iff : acyc g -> forall w v,
  clos_refl_sym_trans nat (fun a b => P b = Some a) w v <->
  chase P (length g) w = chase P (length g) v.
Proof.
  intros Hac w v. split.
  - intros H. induction H as [a b Hab| |a b _ IH|a b c _ IH1 _ IH2].
    + symmetry. apply chase_step; assumption.
    + reflexivity.
    + congruence.
    + congruence.
  - intros H. apply rst_trans with (chase P (length g) v).
    + rewrite <- H. apply rst_sym. apply chase_to.
    + apply chase_to.
Qed.

Lemma chase_range : closed g -> forall w v,
  clos_refl_sym_trans nat (fun a b => P b = Some a) w v ->
  (w < length g <-> v < length g).
Proof.
  intros Hcl w v H. induction H as [a b Hab| |a b _ IH|a b c _ IH1 _ IH2].
  - destruct (HP b a Hab) as [op [ins [Hb Ha]]].
    pose proof (Hcl b op ins Hb a Ha). pose proof (nth_error_some_lt _ _ _ Hb). lia.
  - reflexivity.
  - symmetry. exact IH.
  - rewrite IH1. exact IH2.
Qed.

End Chase.

Section WithTable.
Variable T : optable.

Lemma view_parent_edge : forall g b a, view_parent T g b = Some a -> edge g a b.
Proof.
  intros g b a H. unfold view_parent in H. unfold edge.
  destruct (nth_error g b) as [[k|op ins]|]; try discriminate.
  destruct (view_map T op) as [i|]; [|discriminate].
  exists op, ins. split; [reflexivity|]. eapply nth_error_In; exact H.
Qed.

Lemma storage_parent_edge : forall g b a, storage_parent T g b = Some a -> edge g a b.
Proof.
  intros g b a H. unfold storage_parent in H. unfold edge.
  destruct (nth_error g b) as [[k|op ins]|]; try discriminate.
  exists op, ins. split; [reflexivity|].
  destruct (view_map T op) as [i|]; [eapply nth_error_In; exact H|].
  destruct (destroy_map T op) as [i|]; [eapply nth_error_In; exact H|discriminate].
Qed.

(** The alias relation is exactly "same storage owner". *)
Lemma alias_iff_root : forall g w v, acyc g ->
  alias T g w v <-> alias_root T g w = alias_root T g v.
Proof.
  intros g w v Hac. exact (chase_iff g _ (view_parent_edge g) Hac w v).
Qed.

Lemma storage_iff_root : forall g w v, acyc g ->
  storage_alias T g w v <-> storage_root T g w = storage_root T g v.
Proof.
  intros g w v Hac. exact (chase_iff g _ (storage_parent_edge g) Hac w v).
Qed.

Lemma in_view_tree_set : forall g v w,
  In w (view_tree_set T g v) <-> w < length g /\ alias_root T g w = alias_root T g v.
Proof.
  intros g v w. unfold view_tree_set. rewrite filter_In, in_seq, Nat.eqb_eq. lia.
Qed.

Lemma in_storage_set : forall g v w,
  In w (storage_set T g v) <-> w < length g /\ storage_root T g w = storage_root T g v.
Proof.
  intros g v w. unfold storage_set. rewrite filter_In, in_seq, Nat.eqb_eq. lia.
Qed.

Lemma alias_members : forall g v w, closed g -> acyc g -> v < length g ->
  (alias T g w v <-> In w (view_tree_set T g v)).
Proof.
  intros g v w Hcl Hac Hv. rewrite in_view_tree_set, <- alias_iff_root by exact Hac.
  split; [|tauto]. intros Ha. split; [|exact Ha].
  apply (chase_range g _ (view_parent_edge g) Hcl w v Ha). exact Hv.
Qed.

Lemma storage_members : forall g v w, closed g -> acyc g -> v < length g ->
  (storage_alias T g w v <-> In w (storage_set T g v)).
Proof.
  intros g v w Hcl Hac Hv. rewrite in_storage_set, <- storage_iff_root by exact Hac.
  split; [|tauto]. intros Ha. split; [|exact Ha].
  apply (chase_range g _ (storage_parent_edge g) Hcl w v Ha). exact Hv.
Qed.

Lemma consumesb_edge : forall g c w, consumesb g c w = true <-> edge g w c.
Proof.
  intros g c w. unfold consumesb, edge. split.
  - destruct (nth_error g c) as [[k|op ins]|]; try discriminate. intros H.
    apply existsb_exists in H as [x [Hx Hw]]. apply Nat.eqb_eq in Hw. subst.
    exists op, ins. auto.
  - intros [op [ins [-> Hin]]]. apply existsb_exists. exists w.
    split; [exact Hin|apply Nat.eqb_refl].
Qed.

Lemma in_skipn_iff : forall (l : list nat) n c,
  In c (skipn n l) <-> exists q, n <= q /\ nth_error l q = Some c.
Proof.
  intros l n c. split.
  - intros H. apply In_nth_error in H as [i Hi]. rewrite nth_error_skipn in Hi.
    exists (n + i). split; [lia|exact Hi].
  - intros [q [Hq Hc]]. apply nth_error_In with (q - n).
    rewrite nth_error_skipn. replace (n + (q - n)) with q by lia. exact Hc.
Qed.

Lemma requiredb_iff : forall g sched p w,
  requiredb g sched p w = true <-> required g sched p w.
Proof.
  intros g sched p w. unfold requiredb, required. rewrite existsb_exists. split.
  - intros [c [Hin Hc]]. apply in_skipn_iff in Hin as [q [Hq Hn]].
    apply consumesb_edge in Hc. exists q, c. repeat split; auto; lia.
  - intros [q [c [Hq [Hn He]]]]. exists c. split.
    + apply in_skipn_iff. exists q. split; [lia|exact Hn].
    + apply consumesb_edge. exact He.
Qed.

(** The analysis of one write, read declaratively. *)
Lemma destroy_legal_spec : forall g prot sched p v,
  closed g -> acyc g -> v < length g ->
  (destroy_legal T g prot sched p v = true <->
   (forall w, alias T g w v -> w <> v -> ~ required g sched p w) /\ prot v = false).
Proof.
  intros g prot sched p v Hcl Hac Hv. unfold destroy_legal.
  rewrite andb_true_iff, forallb_forall, negb_true_iff. split.
  - intros [Hall Hp]. split; [|exact Hp]. intros w Ha Hne Hr.
    apply (alias_members g v w Hcl Hac Hv) in Ha.
    specialize (Hall w Ha). apply orb_true_iff in Hall as [Heq|Hnr].
    + apply Nat.eqb_eq in Heq. contradiction.
    + apply negb_true_iff in Hnr. apply requiredb_iff in Hr. congruence.
  - intros [Hall Hp]. split; [|exact Hp]. intros w Hw.
    apply (alias_members g v w Hcl Hac Hv) in Hw.
    destruct (Nat.eq_dec w v) as [->|Hne]; [rewrite Nat.eqb_refl; reflexivity|].
    apply orb_true_iff. right. apply negb_true_iff.
    destruct (requiredb g sched p w) eqn:Er; [|reflexivity].
    exfalso. apply (Hall w Hw Hne). apply requiredb_iff. exact Er.
Qed.

(** The reuse analysis of one node, read declaratively. *)
Lemma infer_reuse_spec : forall g prot outs sched p c op ins x,
  closed g -> acyc g ->
  nth_error sched p = Some c -> nth_error g c = Some (Apply op ins) ->
  (In x (infer_reuse_pattern T g prot outs sched p) <->
   In x ins /\ uniquely_owned T g prot x /\ ~ alive_beyond T g outs sched p x).
Proof.
  intros g prot outs sched p c op ins x Hcl Hac Hs Hg. unfold infer_reuse_pattern.
  rewrite Hs, Hg, filter_In, forallb_forall.
  assert (Hrange : In x ins -> x < length g) by (apply (Hcl c op ins Hg)).
  split.
  - intros [Hin Hall]. pose proof (Hrange Hin) as Hx. split; [exact Hin|]. split.
    + intros w Ha. apply (storage_members g x w Hcl Hac Hx) in Ha.
      specialize (Hall w Ha). apply andb_true_iff in Hall as [Hall _].
      apply andb_true_iff in Hall as [Hall _]. apply negb_true_iff in Hall. exact Hall.
    + intros [w [Ha Hro]]. apply (storage_members g x w Hcl Hac Hx) in Ha.
      specialize (Hall w Ha). apply andb_true_iff in Hall as [Hall Ho].
      apply andb_true_iff in Hall as [_ Hr]. apply negb_true_iff in Hr, Ho.
      destruct Hro as [Hro|Hro].
      * apply requiredb_iff in Hro. congruence.
      * assert (existsb (Nat.eqb w) outs = true)
          by (apply existsb_exists; exists w; split; [exact Hro|apply Nat.eqb_refl]).
        congruence.
  - intros [Hin [Hown Halive]]. pose proof (Hrange Hin) as Hx. split; [exact Hin|].
    intros w Hw. apply (storage_members g x w Hcl Hac Hx) in Hw.
    rewrite (Hown w Hw). simpl.
    destruct (requiredb g sched p w) eqn:Er.
    + exfalso. apply Halive. exists w. split; [exact Hw|left].
      apply requiredb_iff. exact Er.
    + simpl. destruct (existsb (Nat.eqb w) outs) eqn:Eo; [|reflexivity].
      exfalso. apply Halive. exists w. split; [exact Hw|right].
      apply existsb_exists in Eo as [y [Hy Hwy]]. apply Nat.eqb_eq in Hwy. subst y. exact Hy.
Qed.

End WithTable.
End AliasFacts.

Module DestroyFacts.
Import FGraph Alias GraphFacts AliasFacts Pipeline.

Section WithTable.
Variable T : optable.



Variable inplace_of : nat -> option (nat * nat).

Lemma enable_node_cases : forall g prot outs sched p c n0,
  nth_error sched p = Some c -> nth_error g c = Some n0 ->
  enable_node T inplace_of g prot outs sched p n0 = n0 \/
  enabled_ok T inplace_of g prot outs sched c (enable_node T inplace_of g prot outs sched p n0).
Proof.
  intros g prot outs sched p c n0 Hs Hg. destruct n0 as [k|op ins]; [left; reflexivity|].
  simpl. destruct (inplace_of op) as [[op' i]|] eqn:Ei; [|left; reflexivity].
  destruct (nth_error ins i) as [x|] eqn:Ex; [|left; reflexivity].
  destruct (existsb (Nat.eqb x) (infer_reuse_pattern T g prot outs sched p)) eqn:Eb;
    [|left; reflexivity].
  right. apply existsb_exists in Eb as [y [Hy Hxy]]. apply Nat.eqb_eq in Hxy. subst y.
  exists p, op, op', i, ins, x. auto 7.
Qed.

Lemma enable_from_inv : forall g prot outs sched rest p gc,
  (forall k c, nth_error rest k = Some c -> nth_error sched (p + k) = Some c) ->
  (forall c n, nth_error gc c = Some n -> nth_error g c = Some n \/ enabled_ok T inplace_of g prot outs sched c n) ->
  forall c n, nth_error (enable_from T inplace_of g gc prot outs sched p rest) c = Some n ->
  nth_error g c = Some n \/ enabled_ok T inplace_of g prot outs sched c n.
Proof.
  intros g prot outs sched rest. induction rest as [|c0 rest IH]; intros p gc Hr Hinv.
  - exact Hinv.
  - simpl. apply IH.
    + intros k c Hk. replace (S p + k) with (p + S k) by lia. apply (Hr (S k)). exact Hk.
    + destruct (nth_error g c0) as [n0|] eqn:E0; [|exact Hinv].
      intros c n Hn. rewrite nth_error_set_nth in Hn.
      destruct (c =? c0) eqn:Ec; [|exact (Hinv c n Hn)].
      apply Nat.eqb_eq in Ec. subst c.
      destruct (nth_error gc c0); [|discriminate]. inversion Hn; subst n. clear Hn.
      pose proof (Hr 0 c0 eq_refl) as Hs. rewrite Nat.add_0_r in Hs.
      destruct (enable_node_cases g prot outs sched p c0 n0 Hs E0) as [He|He].
      * left. rewrite He. exact E0.
      * right. exact He.
Qed.

End WithTable.
End DestroyFacts.

Module CompileFacts.
Import FGraph Alias GraphFacts AliasFacts Pipeline Compile.

Section WithTable.
Variable T : optable.
Variable deep_copy_op : nat.
Variable schedule : graph -> list nat.


Lemma run_stages_err : forall prot stages i g ws e,
  run_stages T schedule prot stages i g ws = Err e -> e = AliasedMemoryError.
Proof.
  intros prot stages. induction stages as [|s ss IH]; intros i g ws e H; simpl in H.
  - discriminate.
  - destruct (stage_run s g) as [g' conv].
    destruct (stage_destroys s && negb (destroy_ok T g' prot (schedule g'))).
    + inversion H; reflexivity.
    + exact (IH _ _ _ _ H).
Qed.

Lemma optimize_err : forall prot stages g e,
  optimize T schedule prot stages g = Err e -> e = AliasedMemoryError.
Proof.
  intros prot stages g e H. unfold optimize in H.
  destruct (destroy_ok T g prot (schedule g)).
  - exact (run_stages_err _ _ _ _ _ _ H).
  - inversion H; reflexivity.
Qed.

Lemma dc_outputs_spec : forall g inputs outs base ns hs,
  dc_outputs T deep_copy_op g inputs base outs = (ns, hs) ->
  forall i o, nth_error outs i = Some o ->
  (needs_copy T g inputs o = true ->
     exists h, nth_error hs i = Some h /\ base <= h /\
       nth_error ns (h - base) = Some (Apply deep_copy_op [o])) /\
  (needs_copy T g inputs o = false -> nth_error hs i = Some o).
Proof.
  intros g inputs outs. induction outs as [|o0 os IH]; intros base ns hs H i o Ho.
  - destruct i; discriminate.
  - simpl in H. destruct (needs_copy T g inputs o0) eqn:Ec.
    + destruct (dc_outputs T deep_copy_op g inputs (S base) os) as [ns' hs'] eqn:E.
      inversion H; subst ns hs. destruct i as [|i].
      * inversion Ho; subst o. split; [|congruence]. intros _. exists base.
        rewrite Nat.sub_diag. auto.
      * destruct (IH (S base) ns' hs' E i o Ho) as [H1 H2]. split.
        -- intros Hn. destruct (H1 Hn) as [h [Hh [Hb Hns]]]. exists h.
           split; [exact Hh|]. split; [lia|].
           replace (h - base) with (S (h - S base)) by lia. exact Hns.
        -- exact H2.
    + destruct (dc_outputs T deep_copy_op g inputs base os) as [ns' hs'] eqn:E.
      inversion H; subst ns hs. destruct i as [|i].
      * inversion Ho; subst o. split; [congruence|]. intros _. reflexivity.
      * exact (IH base ns' hs' E i o Ho).
Qed.

Lemma root_of_input : forall g x k, nth_error g x = Some (Input k) -> storage_root T g x = x.
Proof.
  intros g x k H. unfold storage_root. apply chase_none. unfold storage_parent. rewrite H.
  reflexivity.
Qed.

Lemma usedb_sound : forall g outs f v, usedb g outs f v = true -> used g outs v.
Proof.
  intros g outs f. induction f as [|f IH]; intros v H; simpl in H;
    apply orb_true_iff in H as [H|H].
  - apply existsb_exists in H as [o [Ho Hv]]. apply Nat.eqb_eq in Hv. subst.
    exists o. split; [exact Ho|apply rt_refl].
  - discriminate.
  - apply existsb_exists in H as [o [Ho Hv]]. apply Nat.eqb_eq in Hv. subst.
    exists o. split; [exact Ho|apply rt_refl].
  - apply existsb_exists in H as [c [_ Hc]]. apply andb_true_iff in Hc as [He Hu].
    apply consumesb_edge in He. destruct (IH c Hu) as [o [Ho Hr]].
    exists o. split; [exact Ho|]. apply rt_trans with c; [apply rt_step; exact He|exact Hr].
Qed.

(** The check is also complete on captured graphs: an input some output
    depends on is never reported. *)
Lemma usedb_complete : forall g outs x, captured g -> used g outs x ->
  usedb g outs (length g) x = true.
Proof.
  intros g outs x Hc [o [Ho Hr]].
  assert (Hgen : forall f, length g - x <= f -> usedb g outs f x = true).
  { apply clos_rt_rt1n in Hr. induction Hr as [v|v c o' He Hr IH]; intros f Hf.
    - destruct f; simpl; apply orb_true_iff; left; apply existsb_exists;
        exists v; split; auto; apply Nat.eqb_refl.
    - destruct He as [op [ins [Hn Hin]]].
      pose proof (Hc c op ins Hn v Hin). pose proof (nth_error_some_lt _ _ _ Hn).
      destruct f as [|f]; [lia|]. simpl. apply orb_true_iff. right.
      apply existsb_exists. exists c. split; [apply in_seq; lia|].
      apply andb_true_iff. split.
      + apply consumesb_edge. exists op, ins. auto.
      + apply IH; [exact Ho|lia]. }
  apply Hgen. lia.
Qed.

Lemma unused_listed : forall g inputs outs x b m,
  In (x, Declared b m) inputs -> ~ used g outs x ->
  In x (filter (fun x => negb (usedb g outs (length g) x)) (declared inputs)).
Proof.
  intros g inputs outs x b m Hin Hu. apply filter_In. split.
  - unfold declared. apply in_map_iff. exists (x, Declared b m). split; [reflexivity|].
    apply filter_In. auto.
  - destruct (usedb g outs (length g) x) eqn:E; [|reflexivity].
    exfalso. apply Hu. exact (usedb_sound _ _ _ _ E).
Qed.

End WithTable.
End CompileFacts.

Module SharedFacts.
Import FGraph GraphFacts Shared.

Section WithSem.
Variable V : Type.
Variable sem : nat -> list V -> V.
Variable dflt : V.

Lemma eval_arena_prefix : forall iv g acc,
  exists r, eval_arena V sem dflt iv g acc = acc ++ r /\ length r = length g.
Proof.
  intros iv g. induction g as [|n g IH]; intros acc.
  - exists []. rewrite app_nil_r. auto.
  - simpl. destruct (IH (acc ++ [eval_node V sem dflt iv acc n])) as [r [Hr Hl]].
    exists (eval_node V sem dflt iv acc n :: r). rewrite Hr, <- app_assoc. simpl. auto.
Qed.

Lemma eval_arena_nth : forall iv g acc v n, nth_error g v = Some n ->
  nth (length acc + v) (eval_arena V sem dflt iv g acc) dflt =
  eval_node V sem dflt iv (firstn (length acc + v) (eval_arena V sem dflt iv g acc)) n.
Proof.
  intros iv g. induction g as [|n0 g IH]; intros acc v n Hv; [destruct v; discriminate|].
  simpl. destruct v as [|v].
  - simpl in Hv. inversion Hv; subst n0. rewrite Nat.add_0_r.
    destruct (eval_arena_prefix iv g (acc ++ [eval_node V sem dflt iv acc n])) as [r [Hr _]].
    rewrite Hr, <- app_assoc. rewrite app_nth2 by lia. rewrite Nat.sub_diag.
    rewrite firstn_app, firstn_all, Nat.sub_diag. simpl. rewrite app_nil_r. reflexivity.
  - simpl in Hv. pose proof (IH (acc ++ [eval_node V sem dflt iv acc n0]) v n Hv) as H.
    rewrite length_app in H. simpl in H. replace (length acc + S v) with (length acc + 1 + v) by lia.
    exact H.
Qed.

Section Fn.
Variable f : fn.
Variable store : nat -> V.
Variable args : list V.
Let g := fn_graph f.
Let R := eval_arena V sem dflt (input_value V dflt f store args) g [].
Let val := value_pre V sem dflt f store args.

Lemma eval_length : length R = length g.
Proof.
  destruct (eval_arena_prefix (input_value V dflt f store args) g []) as [r [Hr Hl]].
  unfold R. rewrite Hr. exact Hl.
Qed.

Lemma value_pre_input : forall c k, nth_error g c = Some (Input k) ->
  val c = input_value V dflt f store args k.
Proof.
  intros c k H. unfold val, value_pre. exact (eval_arena_nth _ g [] c _ H).
Qed.

Lemma value_pre_apply : forall c op ins, captured g -> nth_error g c = Some (Apply op ins) ->
  val c = sem op (map val ins).
Proof.
  intros c op ins Hc H. unfold val, value_pre. fold g. rewrite (eval_arena_nth _ g [] c _ H).
  simpl. f_equal. apply map_ext_in. intros u Hu. pose proof (Hc c op ins H u Hu).
  pose proof (nth_error_some_lt _ _ _ H). pose proof eval_length as HL. unfold R in HL.
  rewrite <- (firstn_skipn c (eval_arena V sem dflt _ g [])) at 2.
  rewrite app_nth1; [reflexivity|]. rewrite length_firstn. lia.
Qed.

Lemma lookup_all_map : forall (e : nat -> option V) l,
  (forall u, In u l -> e u = Some (val u)) -> lookup_all V e l = Some (map val l).
Proof.
  intros e l. induction l as [|x l IH]; intros H; [reflexivity|]. simpl.
  rewrite (H x (or_introl eq_refl)), IH; [reflexivity|]. intros u Hu. apply H. right. exact Hu.
Qed.

Lemma run_spec : forall sched, captured g -> valid_schedule g sched ->
  forall rest done e, sched = done ++ rest ->
  (forall x, In x done -> e x = Some (val x)) ->
  exists e', run V sem dflt f store args e rest = Some e' /\
    forall x, In x sched -> e' x = Some (val x).
Proof.
  intros sched Hc [Hall [Hrange Hdeps]] rest. induction rest as [|c rest IH]; intros done e Hs He.
  - exists e. split; [reflexivity|]. rewrite Hs, app_nil_r. exact He.
  - assert (Hc_in : In c sched) by (rewrite Hs; apply in_or_app; right; left; reflexivity).
    pose proof (Hrange c Hc_in) as Hlt.
    assert (Hpos : nth_error sched (length done) = Some c)
      by (rewrite Hs, nth_error_app2, Nat.sub_diag by lia; reflexivity).
    assert (Hexec : exec_node V sem dflt f store args e c = Some (val c)).
    { unfold exec_node. fold g.
      destruct (nth_error g c) as [[k|op ins]|] eqn:E.
      - rewrite (value_pre_input c k E). reflexivity.
      - rewrite (value_pre_apply c op ins Hc E), (lookup_all_map e ins); [reflexivity|].
        intros u Hu. destruct (Hdeps _ _ _ _ u Hpos E Hu) as [q' [Hq' Hn]].
        apply He. rewrite Hs, nth_error_app1 in Hn by lia. eapply nth_error_In; exact Hn.
      - apply nth_error_None in E. lia. }
    simpl. rewrite Hexec. apply (IH (done ++ [c])).
    + rewrite Hs, <- app_assoc. reflexivity.
    + intros x Hx. destruct (x =? c) eqn:Ex.
      * apply Nat.eqb_eq in Ex. subst. reflexivity.
      * apply He. apply in_app_or in Hx as [Hx|[Hx|[]]]; [exact Hx|].
        subst. rewrite Nat.eqb_refl in Ex. discriminate.
Qed.

End Fn.

Lemma handle_order_valid : forall g, captured g -> valid_schedule g (seq 0 (length g)).
Proof.
  intros g Hc. split; [|split].
  - intros v Hv. apply in_seq. lia.
  - intros c Hin. apply in_seq in Hin. lia.
  - intros q c op ins u Hq Hn Hu.
    assert (Hql : q < length g)
      by (pose proof (nth_error_some_lt _ _ _ Hq); rewrite length_seq in *; lia).
    rewrite nth_error_nth' with (d := 0) in Hq by (rewrite length_seq; lia).
    rewrite seq_nth in Hq by lia. inversion Hq; subst c.
    pose proof (Hc q op ins Hn u Hu). exists u. split; [lia|].
    rewrite nth_error_nth' with (d := 0) by (rewrite length_seq; lia).
    rewrite seq_nth by lia. reflexivity.
Qed.

End WithSem.
End SharedFacts.

Module InitFacts.
Import Init.

Lemma exec_module_ok : forall exports ns stmts,
  (forall m names n, In (m, names) stmts -> In n names -> In n (exports m)) ->
  exec_module exports ns stmts = Some (bind_all ns stmts).
Proof.
  intros exports ns stmts. revert ns. induction stmts as [|[m names] rest IH]; intros ns H.
  - reflexivity.
  - simpl. unfold exec_from_import.
    replace (forallb (fun n => existsb (String.eqb n) (exports m)) names) with true.
    + apply IH. intros m' names' n Hin Hn. apply (H m' names' n); [right|]; assumption.
    + symmetry. apply forallb_forall. intros n Hn. apply existsb_exists. exists n.
      split; [apply (H m names n); [left; reflexivity|exact Hn]|apply String.eqb_refl].
Qed.

Lemma binding_eqb_true : forall b m n, binding_eqb b m n = true -> b = Some (m, n).
Proof.
  intros [[m' n']|] m n H; simpl in H; [|discriminate].
  apply andb_true_iff in H as [H1 H2]. apply String.eqb_eq in H1, H2. subst. reflexivity.
Qed.

End InitFacts.

Module PackageFacts.
Import Package.
Import String.StringSyntax.
Local Open Scope string_scope.

Lemma lookup_app : forall l1 l2 n,
  lookup (l1 ++ l2) n = match lookup l1 n with Some v => Some v | None => lookup l2 n end.
Proof.
  induction l1 as [|[n' v] l1 IH]; intros l2 n; simpl; [reflexivity|].
  destruct (String.eqb n' n); [reflexivity|apply IH].
Qed.

Lemma lookup_in : forall ns n v, lookup ns n = Some v -> In (n, v) ns.
Proof.
  induction ns as [|[n' v'] ns IH]; intros n v H; simpl in H; [discriminate|].
  destruct (String.eqb_spec n' n) as [->|_].
  - injection H as ->. left. reflexivity.
  - right. apply IH, H.
Qed.

Lemma lookup_none : forall ns n, ~ In n (map fst ns) -> lookup ns n = None.
Proof.
  induction ns as [|[n' v'] ns IH]; intros n H; simpl in *; [reflexivity|].
  destruct (String.eqb_spec n' n) as [->|_]; [exfalso; apply H; left; reflexivity|].
  apply IH. intro Hn. apply H. right. exact Hn.
Qed.

(** A name all of whose bindings hold the same object is looked up to it. *)
Lemma lookup_uniform : forall ns n v,
  (forall v', In (n, v') ns -> v' = v) -> In n (map fst ns) -> lookup ns n = Some v.
Proof.
  induction ns as [|[n' v0] ns IH]; intros n v Hall Hin; simpl in *; [contradiction|].
  destruct (String.eqb_spec n' n) as [->|Hne].
  - f_equal. apply Hall. left. reflexivity.
  - destruct Hin as [->|Hin]; [contradiction|].
    apply IH; [intros v' Hv'; apply Hall; right; exact Hv'|exact Hin].
Qed.

Lemma fst_attrs : forall m names,
  map fst (rev (map (fun n => (n, Attr m n)) names)) = rev names.
Proof. intros. rewrite map_rev, map_map. simpl. rewrite map_id. reflexivity. Qed.

Lemma fst_submodules : forall pkg cs, map fst (map (submodule_binding pkg) cs) = cs.
Proof. intros. rewrite map_map. simpl. apply map_id. Qed.

Lemma snd_pairs : forall (m : String.string) (names : list String.string), map snd (map (fun n => (m, n)) names) = names.
Proof. intros. rewrite map_map. apply map_id. Qed.

Lemma imports_cons : forall m names rest,
  imports ((m, names) :: rest) = map (fun n => (m, n)) names ++ imports rest.
Proof. reflexivity. Qed.

Lemma in_imports : forall stmts m n,
  In (m, n) (imports stmts) <-> exists names, In (m, names) stmts /\ In n names.
Proof.
  intros stmts m n. unfold imports. rewrite in_flat_map. split.
  - intros [[m' names] [Hs Hn]]. apply in_map_iff in Hn as [n' [Heq Hn']].
    injection Heq as -> ->. exists names. split; assumption.
  - intros [names [Hs Hn]]. exists (m, names). split; [exact Hs|].
    apply in_map_iff. exists n. split; [reflexivity|exact Hn].
Qed.

Lemma nodup_app_disjoint : forall (l1 l2 : list String.string) x,
  NoDup (l1 ++ l2) -> In x l1 -> ~ In x l2.
Proof.
  induction l1 as [|a l1 IH]; intros l2 x Hnd Hx; [contradiction|].
  simpl in Hnd. inversion Hnd as [|? ? Ha Hnd']; subst.
  destruct Hx as [->|Hx].
  - intro H2. apply Ha, in_or_app. right. exact H2.
  - apply (IH l2 x Hnd' Hx).
Qed.

Lemma nodupb_spec : forall l, nodupb l = true -> NoDup l.
Proof.
  induction l as [|n rest IH]; intros H; [constructor|].
  simpl in H. apply andb_true_iff in H as [H1 H2]. constructor; [|apply IH, H2].
  intro Hin. apply negb_true_iff in H1.
  assert (existsb (String.eqb n) rest = true)
    by (apply existsb_exists; exists n; split; [exact Hin|apply String.eqb_refl]).
  congruence.
Qed.

Lemma forallb_false_ex : forall (A : Type) (f : A -> bool) l,
  forallb f l = false -> exists x, In x l /\ f x = false.
Proof.
  intros A f. induction l as [|a l IH]; intros H; simpl in H; [discriminate|].
  destruct (f a) eqn:Ha; simpl in H.
  - destruct (IH H) as [x [Hx Hf]]. exists x. split; [right|]; assumption.
  - exists a. split; [left; reflexivity|exact Ha].
Qed.

Lemma existsb_eqb_in : forall n l, existsb (String.eqb n) l = true <-> In n l.
Proof.
  intros n l. rewrite existsb_exists. split.
  - intros [x [Hx Heq]]. apply String.eqb_eq in Heq. subst. exact Hx.
  - intros Hn. exists n. split; [exact Hn|apply String.eqb_refl].
Qed.

(** The import fails exactly when some module lacks a name imported from it. *)
Lemma exec_none_iff : forall exports loads pkg stmts ns,
  exec_module exports loads pkg ns stmts = None <->
  exists m names n, In (m, names) stmts /\ In n names /\ ~ In n (exports m).
Proof.
  intros exports loads pkg. induction stmts as [|[m names] rest IH]; intros ns; simpl.
  - split; [discriminate|]. intros (m & names & n & [] & _).
  - unfold exec_from_import.
    destruct (forallb (fun n => existsb (String.eqb n) (exports m)) names) eqn:E.
    + rewrite IH. split.
      * intros (m' & names' & n & Hs & Hn & Hx). exists m', names', n.
        split; [right; exact Hs|split; assumption].
      * intros (m' & names' & n & [Heq|Hs] & Hn & Hx).
        -- injection Heq as <- <-. exfalso. apply Hx.
           rewrite forallb_forall in E. apply existsb_eqb_in, E, Hn.
        -- exists m', names', n. split; [exact Hs|split; assumption].
    + split; [intros _|reflexivity].
      destruct (forallb_false_ex _ _ _ E) as [n [Hn Hx]].
      exists m, names, n. split; [left; reflexivity|]. split; [exact Hn|].
      intro Hin. apply existsb_eqb_in in Hin. congruence.
Qed.

Lemma exec_some : forall exports loads pkg stmts ns,
  (forall m n, In (m, n) (imports stmts) -> In n (exports m)) ->
  exists ns', exec_module exports loads pkg ns stmts = Some ns'.
Proof.
  intros exports loads pkg stmts ns H.
  destruct (exec_module exports loads pkg ns stmts) as [ns'|] eqn:E; [exists ns'; reflexivity|].
  apply exec_none_iff in E as (m & names & n & Hs & Hn & Hx).
  exfalso. apply Hx, H, in_imports. exists names. split; assumption.
Qed.

Lemma exec_step : forall exports loads pkg m names rest ns ns',
  exec_module exports loads pkg ns ((m, names) :: rest) = Some ns' ->
  exec_module exports loads pkg
    (rev (map (fun n => (n, Attr m n)) names)
       ++ map (submodule_binding pkg) (child_list pkg m ++ loads m) ++ ns) rest = Some ns'.
Proof.
  intros exports loads pkg m names rest ns ns' H. simpl in H. unfold exec_from_import in H.
  destruct (forallb _ names); [exact H|discriminate].
Qed.

Lemma layer_lookup_none : forall pkg m names cs ns n,
  ~ In n names -> ~ In n cs ->
  lookup (rev (map (fun n => (n, Attr m n)) names) ++ map (submodule_binding pkg) cs ++ ns) n
  = lookup ns n.
Proof.
  intros pkg m names cs ns n H1 H2. rewrite !lookup_app.
  rewrite (lookup_none (rev _)); [|rewrite fst_attrs, <- in_rev; exact H1].
  rewrite (lookup_none (map _ cs)); [reflexivity|rewrite fst_submodules; exact H2].
Qed.

(** A name neither imported nor set as a submodule keeps its binding. *)
Lemma exec_frame : forall exports loads pkg stmts ns ns' n,
  exec_module exports loads pkg ns stmts = Some ns' ->
  ~ In n (map snd (imports stmts)) -> ~ In n (submodules_of pkg loads stmts) ->
  lookup ns' n = lookup ns n.
Proof.
  intros exports loads pkg. induction stmts as [|[m names] rest IH]; intros ns ns' n H H1 H2.
  - injection H as ->. reflexivity.
  - apply exec_step in H. rewrite imports_cons, map_app, snd_pairs in H1.
    simpl in H2. rewrite (IH _ _ n H).
    + apply layer_lookup_none; intro Hn; [apply H1|apply H2]; apply in_or_app; left; exact Hn.
    + intro Hn. apply H1, in_or_app. right. exact Hn.
    + intro Hn. apply H2, in_or_app. right. exact Hn.
Qed.

Lemma exec_submodule : forall exports loads pkg stmts ns ns' c,
  exec_module exports loads pkg ns stmts = Some ns' ->
  In c (submodules_of pkg loads stmts) -> ~ In c (map snd (imports stmts)) ->
  lookup ns' c = Some (Submodule (String.append pkg (String.append "." c))).
Proof.
  intros exports loads pkg. induction stmts as [|[m names] rest IH]; intros ns ns' c H Hc Hn.
  - contradiction.
  - apply exec_step in H. rewrite imports_cons, map_app, snd_pairs in Hn.
    destruct (in_dec String.string_dec c (submodules_of pkg loads rest)) as [Hr|Hr].
    + apply (IH _ _ c H Hr). intro Hi. apply Hn, in_or_app. right. exact Hi.
    + rewrite (exec_frame _ _ _ _ _ _ c H); [|intro Hi; apply Hn, in_or_app; right; exact Hi|exact Hr].
      simpl in Hc. apply in_app_or in Hc as [Hc|Hc]; [|contradiction].
      rewrite lookup_app, lookup_none;
        [|rewrite fst_attrs, <- in_rev; intro Hi; apply Hn, in_or_app; left; exact Hi].
      rewrite lookup_app, (lookup_uniform _ _ (Submodule (String.append pkg (String.append "." c))));
        [reflexivity| |rewrite fst_submodules; exact Hc].
      intros v' Hv'. apply in_map_iff in Hv' as [c' [Heq _]]. unfold submodule_binding in Heq.
      injection Heq as -> <-. reflexivity.
Qed.

Lemma exec_attr : forall exports loads pkg stmts ns ns' m n,
  exec_module exports loads pkg ns stmts = Some ns' ->
  NoDup (map snd (imports stmts)) ->
  (forall c, In c (submodules_of pkg loads stmts) -> ~ In c (map snd (imports stmts))) ->
  In (m, n) (imports stmts) -> lookup ns' n = Some (Attr m n).
Proof.
  intros exports loads pkg. induction stmts as [|[m0 names] rest IH]; intros ns ns' m n H Hnd Hdis Hin.
  - contradiction.
  - apply exec_step in H. rewrite imports_cons in Hin. rewrite imports_cons, map_app, snd_pairs in Hnd, Hdis.
    apply in_app_or in Hin as [Hin|Hin].
    + apply in_map_iff in Hin as [n' [Heq Hn]]. injection Heq as -> ->.
      assert (Hnr : ~ In n (map snd (imports rest))) by (apply (nodup_app_disjoint names); assumption).
      rewrite (exec_frame _ _ _ _ _ _ n H Hnr).
      * rewrite lookup_app, (lookup_uniform _ _ (Attr m n));
          [reflexivity| |rewrite fst_attrs, <- in_rev; exact Hn].
        intros v' Hv'. apply in_rev, in_map_iff in Hv' as [n' [Heq _]]. injection Heq as -> <-. reflexivity.
      * intro Hs. apply (Hdis n); [simpl; apply in_or_app; right; exact Hs|apply in_or_app; left; exact Hn].
    + apply (IH _ _ m n H); [apply NoDup_app_remove_l with names; exact Hnd| |exact Hin].
      intros c Hc Hi. apply (Hdis c); [simpl; apply in_or_app; right; exact Hc|apply in_or_app; right; exact Hi].
Qed.

(** The names [from M import *] takes, with their bindings. *)
Lemma star_import_in : forall ns l n v,
  star_import ns = Some l -> In (n, v) l <-> is_public n = true /\ lookup ns n = Some v.
Proof.
  intros ns l n v H. unfold star_import in H.
  destruct (lookup ns "__all__"); [discriminate|]. injection H as <-.
  rewrite in_flat_map. split.
  - intros [x [Hx Hv]]. apply filter_In in Hx as [_ Hp].
    destruct (lookup ns x) as [v0|] eqn:E; [|contradiction].
    destruct Hv as [Heq|[]]. injection Heq as -> ->. split; assumption.
  - intros [Hp Hl]. exists n. split.
    + apply filter_In. split; [|exact Hp]. apply nodup_In, in_map_iff.
      exists (n, v). split; [reflexivity|apply lookup_in, Hl].
    + rewrite Hl. left. reflexivity.
Qed.

Lemma submodules_iff : forall pkg loads stmts c,
  (forall m names, In (m, names) stmts -> names <> []) ->
  In c (submodules_of pkg loads stmts) <->
  exists m n, In (m, n) (imports stmts) /\ In c (child_list pkg m ++ loads m).
Proof.
  intros pkg loads stmts c Hne. unfold submodules_of. rewrite in_flat_map. split.
  - intros [[m names] [Hs Hc]]. destruct names as [|n0 names]; [exfalso; exact (Hne m [] Hs eq_refl)|].
    exists m, n0. split; [apply in_imports; exists (n0 :: names); split; [exact Hs|left; reflexivity]|exact Hc].
  - intros (m & n & Hi & Hc). apply in_imports in Hi as [names [Hs _]].
    exists (m, names). split; assumption.
Qed.

Lemma submodules_split : forall pkg loads (stmts : list (String.string * list String.string)) c,
  In c (submodules_of pkg loads stmts) <->
  In c (flat_map (fun '(m, _) => child_list pkg m) stmts) \/
  In c (flat_map (fun '(m, _) => loads m) stmts).
Proof.
  intros pkg loads. unfold submodules_of.
  induction stmts as [|[m names] rest IH]; intros c; simpl; [tauto|].
  rewrite !in_app_iff, IH. tauto.
Qed.

(** Facts of the statements of [__init__.py], decided by evaluation. *)

Lemma init_children : forall c,
  In c (flat_map (fun '(m, _) => child_list package m) Init.init_py) <-> In c init_submodules.
Proof.
  intros c.
  replace (flat_map (fun '(m, _) => child_list package m) Init.init_py)
    with ["function"; "function"; "io"; "mode"; "monitormode"; "ops"; "profiling"; "sharedvalue"]
    by (vm_compute; reflexivity).
  unfold init_submodules. simpl. tauto.
Qed.

Lemma init_nodup : NoDup (map snd (imports Init.init_py)).
Proof. apply nodupb_spec. vm_compute. reflexivity. Qed.

Lemma init_submodules_not_imported : forall c,
  In c init_submodules -> ~ In c (map snd (imports Init.init_py)).
Proof.
  intros c Hc Hi.
  assert (H : forallb (fun c => negb (existsb (String.eqb c) (map snd (imports Init.init_py))))
                init_submodules = true) by (vm_compute; reflexivity).
  rewrite forallb_forall in H. specialize (H c Hc).
  apply existsb_eqb_in in Hi. rewrite Hi in H. discriminate.
Qed.

Lemma init_imports_public : forall n, In n (map snd (imports Init.init_py)) -> is_public n = true.
Proof.
  intros n Hn.
  assert (H : forallb is_public (map snd (imports Init.init_py)) = true) by (vm_compute; reflexivity).
  rewrite forallb_forall in H. apply H, Hn.
Qed.

Lemma init_submodules_public : forall c, In c init_submodules -> is_public c = true.
Proof.
  intros c Hc. assert (H : forallb is_public init_submodules = true) by (vm_compute; reflexivity).
  rewrite forallb_forall in H. apply H, Hc.
Qed.

Lemma init_nonempty : forall m names, In (m, names) Init.init_py -> names <> [].
Proof.
  intros m names H. simpl in H.
  repeat (destruct H as [H|H]; [injection H as _ <-; discriminate|]). contradiction.
Qed.

Lemma all_not_imported : ~ In "__all__" (map snd (imports Init.init_py)).
Proof.
  intro H. apply existsb_eqb_in in H. vm_compute in H. discriminate.
Qed.

Lemma init_exports_ok : forall exports,
  (forall m names n, In (m, names) Init.init_py -> In n names -> In n (exports m)) ->
  forall m n, In (m, n) (imports Init.init_py) -> In n (exports m).
Proof.
  intros exports H m n Hi. apply in_imports in Hi as [names [Hs Hn]]. exact (H m names n Hs Hn).
Qed.

Lemma init_disjoint : forall (loads : String.string -> list String.string),
  (forall m c, In c (loads m) -> ~ In c (map snd (imports Init.init_py))) ->
  forall c, In c (submodules_of package loads Init.init_py) -> ~ In c (map snd (imports Init.init_py)).
Proof.
  intros loads Hl c Hc. apply submodules_split in Hc as [Hc|Hc].
  - apply init_submodules_not_imported, init_children, Hc.
  - apply in_flat_map in Hc as [[m names] [_ Hc]]. exact (Hl m c Hc).
Qed.

Lemma init_exec_facts : forall exports loads ns,
  (forall m names n, In (m, names) Init.init_py -> In n names -> In n (exports m)) ->
  (forall m c, In c (loads m) -> ~ In c (map snd (imports Init.init_py))) ->
  exists ns', exec_module exports loads package ns Init.init_py = Some ns' /\
    (forall m n, In (m, n) (imports Init.init_py) -> lookup ns' n = Some (Attr m n)) /\
    (forall c, In c init_submodules \/ In c (flat_map (fun '(m, _) => loads m) Init.init_py) ->
       lookup ns' c = Some (Submodule (String.append package (String.append "." c)))) /\
    (forall n, ~ In n (map snd (imports Init.init_py)) -> ~ In n init_submodules ->
       ~ In n (flat_map (fun '(m, _) => loads m) Init.init_py) -> lookup ns' n = lookup ns n).
Proof.
  intros exports loads ns Hex Hl.
  destruct (exec_some exports loads package Init.init_py ns (init_exports_ok exports Hex)) as [ns' E].
  exists ns'. split; [exact E|]. split; [|split].
  - intros m n Hi. apply (exec_attr _ _ _ _ _ _ m n E init_nodup (init_disjoint loads Hl) Hi).
  - intros c Hc. assert (Hs : In c (submodules_of package loads Init.init_py))
      by (apply submodules_split; rewrite init_children; exact Hc).
    apply (exec_submodule _ _ _ _ _ _ c E Hs (init_disjoint loads Hl c Hs)).
  - intros n H1 H2 H3. apply (exec_frame _ _ _ _ _ _ n E H1).
    rewrite submodules_split, init_children. tauto.
Qed.

End PackageFacts.

(** * The claims *)

Module Claims.
Import FGraph Scenarios.

(** Two structurally identical additions are merged, and the consumer of
    the second one is redirected to the first. *)
Example merge_example :
  Merge.merge [0; 1; 2; 3; 4] (Merge.mkFGraph
    [Input 0; Input 1; Apply 5 [0; 1]; Apply 5 [0; 1]; Apply 6 [2; 3]] [4; 3])
  = Merge.mkFGraph
    [Input 0; Input 1; Apply 5 [0; 1]; Apply 5 [0; 1]; Apply 6 [2; 2]] [4; 2].
Proof. reflexivity. Qed.

(** C5: every graph obtained from a captured graph by any sequence of
    rewrite applications (each replacing a subgraph by a replacement built
    from values that do not depend on the replaced variable) is acyclic. *)
Theorem rewrites_preserve_acyclicity : forall g g',
  captured g -> Rewrite.rewrites g g' -> no_cycle g'.
Proof.
  intros g g' Hc Hr.
  apply GraphFacts.acyc_no_cycle.
  apply (RewriteFacts.rewrites_invariant g g' Hr).
  split; [apply GraphFacts.captured_closed | apply GraphFacts.captured_acyc]; exact Hc.
Qed.

Lemma rewrites_preserve_acyclicity_witness :
  captured acyc_g0 /\ Rewrite.rewrites acyc_g0 acyc_g1 /\ no_cycle acyc_g1.
Proof.
  assert (Hc : captured acyc_g0) by (apply GraphFacts.capturedb_captured; reflexivity).
  assert (Hr : Rewrite.rewrites acyc_g0 acyc_g1).
  { apply rt_step. exists 2, 4, [Apply 7 [1; 0]]. split; [|reflexivity].
    split; [simpl; lia|]. split; [right; simpl; lia|].
    intros k op ins Hk u Hu. destruct k as [|k]; [|destruct k; discriminate].
    inversion Hk; subst. left. split; [simpl in Hu; destruct Hu as [<-|[<-|[]]]; simpl; lia|].
    intros Hre. apply (GraphFacts.captured_reach_lt _ _ _ Hc) in Hre.
    simpl in Hu; destruct Hu as [<-|[<-|[]]]; lia. }
  split; [exact Hc|]. split; [exact Hr|].
  exact (rewrites_preserve_acyclicity acyc_g0 acyc_g1 Hc Hr).
Defined.

(** C8: a merge pass visiting the graph in an order of its nodes
    (inputs first) leaves no two structurally identical applications in
    the graph of the outputs, and a second pass, in any order of the merged
    graph, returns the merged graph unchanged: one pass reaches the
    fixpoint. *)
Theorem merge_idempotent : forall fg order order',
  Merge.topo_order fg order -> Merge.topo_order (Merge.merge order fg) order' ->
  Merge.merge order' (Merge.merge order fg) = Merge.merge order fg /\
  (forall v w op ins,
     Merge.reachable (Merge.nodes (Merge.merge order fg)) (Merge.outputs (Merge.merge order fg)) v ->
     Merge.reachable (Merge.nodes (Merge.merge order fg)) (Merge.outputs (Merge.merge order fg)) w ->
     nth_error (Merge.nodes (Merge.merge order fg)) v = Some (Apply op ins) ->
     nth_error (Merge.nodes (Merge.merge order fg)) w = Some (Apply op ins) -> v = w).
Proof.
  intros [g outs] order order' [Hnd [Htopo Hcov]] [_ [_ Hcov']].
  simpl in Hnd, Htopo, Hcov.
  pose proof (MergeFacts.fold_inv g order Hnd Htopo order [] (eq_sym (app_nil_r order)))
    as [Hlen [H1 [H2 [H3 [H4 [H5 [H6 H7]]]]]]].
  unfold Merge.merge in *. simpl in *.
  set (st := fold_left Merge.merge_visit order (Merge.mkMState [] (fun x => x) g)) in *.
  (* the graph of the merged outputs is made of kept nodes *)
  assert (Hkept : forall v, Merge.reachable (Merge.arena st) (map (Merge.canon st) outs) v ->
            v < length (Merge.arena st) -> In v (Merge.kept st)).
  { intros v [o1 [Ho1 Hr]] Hv.
    assert (HQ : In v (Merge.kept st) \/ length g <= v).
    { apply (GraphFacts.reach_closed (Merge.arena st) (map (Merge.canon st) outs)
               (fun x => In x (Merge.kept st) \/ length g <= x)) with (o := o1);
        [| |exact Ho1|exact Hr].
      - intros o' Ho'. apply in_map_iff in Ho' as [o [<- Ho]].
        destruct (Nat.lt_ge_cases o (length g)) as [Hol|Hol].
        + left. apply H2; [|exact Hol]. apply Hcov. split; [|exact Hol].
          exists o. split; [exact Ho|apply rt_refl].
        + right. rewrite (H1 o (or_intror Hol)). exact Hol.
      - intros c op ins u [Hc|Hc] Hn Hu.
        + exact (H7 c op ins u Hc Hn Hu).
        + exfalso. pose proof (GraphFacts.nth_error_some_lt _ _ _ Hn). lia. }
    destruct HQ as [HQ|HQ]; [exact HQ|lia]. }
  split.
  - destruct (MergeFacts.pass_stable (Merge.arena st) (Merge.kept st) H6 order'
                (Merge.mkMState [] (fun x => x) (Merge.arena st)))
      as [Hid Ha]; simpl; auto.
    + intros v Hv. apply Hcov' in Hv as [Hr Hv]. exact (Hkept v Hr Hv).
    + intros s [].
    + rewrite Ha. f_equal.
      rewrite (map_ext _ (fun x => x) Hid). apply map_id.
  - intros v w op ins Hv Hw Ev Ew.
    apply (H6 v w op ins); [apply Hkept; [exact Hv|]|apply Hkept; [exact Hw|]|exact Ev|exact Ew].
    + exact (GraphFacts.nth_error_some_lt _ _ _ Ev).
    + exact (GraphFacts.nth_error_some_lt _ _ _ Ew).
Qed.

(** The merge redirects node [1], which reads the merged node [3] from a
    smaller handle, to the survivor [2]. *)
Example merge_after_rewrite_example :
  Merge.merge merge_order merge_fg
  = Merge.mkFGraph [Input 0; Apply 6 [2; 2]; Apply 5 [0]; Apply 5 [0]] [1].
Proof. reflexivity. Qed.

Ltac pick_position :=
  first [ exists 0; split; [lia|reflexivity] | exists 1; split; [lia|reflexivity]
        | exists 2; split; [lia|reflexivity] | exists 3; split; [lia|reflexivity] ].

Lemma merge_idempotent_witness :
  Merge.topo_order merge_fg merge_order /\
  Merge.topo_order (Merge.merge merge_order merge_fg) merged_order /\
  Merge.merge merged_order (Merge.merge merge_order merge_fg) = Merge.merge merge_order merge_fg.
Proof.
  assert (Hm : Merge.merge merge_order merge_fg =
               Merge.mkFGraph [Input 0; Apply 6 [2; 2]; Apply 5 [0]; Apply 5 [0]] [1])
    by reflexivity.
  assert (H1 : Merge.topo_order merge_fg merge_order).
  { split; [|split].
    - unfold merge_order. repeat constructor; simpl; intuition discriminate.
    - intros q v op ins u Hq Hv Hu.
      destruct q as [|[|[|[|q]]]]; simpl in Hq; try (destruct q; simpl in Hq);
        try discriminate; injection Hq as <-;
        simpl in Hv; try discriminate; injection Hv as <- <-; simpl in Hu;
        repeat (destruct Hu as [<-|Hu]; [pick_position|]); destruct Hu.
    - intros v. split.
      + intros Hv. split.
        * apply (CompileFacts.usedb_sound (Merge.nodes merge_fg) _ 4).
          simpl in Hv. repeat (destruct Hv as [<-|Hv]; [reflexivity|]); destruct Hv.
        * simpl in Hv |- *. repeat (destruct Hv as [<-|Hv]; [lia|]); destruct Hv.
      + intros [_ Hv]. simpl in Hv. unfold merge_order.
        destruct v as [|[|[|[|v]]]]; simpl; tauto || lia. }
  assert (H2 : Merge.topo_order (Merge.merge merge_order merge_fg) merged_order).
  { rewrite Hm. split; [|split].
    - unfold merged_order. repeat constructor; simpl; intuition discriminate.
    - intros q v op ins u Hq Hv Hu.
      destruct q as [|[|[|q]]]; simpl in Hq; try (destruct q; simpl in Hq);
        try discriminate; injection Hq as <-;
        simpl in Hv; try discriminate; injection Hv as <- <-; simpl in Hu;
        repeat (destruct Hu as [<-|Hu]; [pick_position|]); destruct Hu.
    - intros v. split.
      + intros Hv. split.
        * apply (CompileFacts.usedb_sound _ _ 4).
          simpl in Hv. repeat (destruct Hv as [<-|Hv]; [reflexivity|]); destruct Hv.
        * simpl in Hv |- *. repeat (destruct Hv as [<-|Hv]; [lia|]); destruct Hv.
      + intros [[o [Ho Hr]] Hv]. simpl in Hv, Ho, Hr.
        assert (HQ : In v merged_order \/ 4 <= v).
        { refine (GraphFacts.reach_closed _ [1] (fun x => In x merged_order \/ 4 <= x)
                    _ _ v o Ho Hr).
          - intros o' [<-|[]]. left. simpl. tauto.
          - intros c op ins u Hc Hn Hu. left.
            destruct Hc as [Hc|Hc]; [|apply GraphFacts.nth_error_some_lt in Hn; simpl in Hn; lia].
            simpl in Hc. repeat (destruct Hc as [<-|Hc]; [simpl in Hn; try discriminate;
              injection Hn as <- <-; simpl in Hu; simpl; tauto|]); destruct Hc. }
        destruct HQ as [HQ|HQ]; [exact HQ|lia]. }
  split; [exact H1|]. split; [exact H2|].
  exact (proj1 (merge_idempotent merge_fg merge_order merged_order H1 H2)).
Defined.

(** C2: for a variable [v] of a graph without cycles whose inputs all
    refer to its nodes (every graph rewrites produce from a captured
    graph), the aliasing analysis accepts a destructive write on [v] by
    the node at position [p] of the schedule iff no member of [v]'s
    transitive alias set other than [v] is read by a node scheduled after
    [p], and [v] is not protected. *)
Theorem destroy_legal_iff : forall T g prot sched p v,
  closed g -> acyc g -> v < length g ->
  (Alias.destroy_legal T g prot sched p v = true <->
   (forall w, Alias.alias T g w v -> w <> v -> ~ Alias.required g sched p w) /\
   prot v = false).
Proof.
  intros T g prot sched p v Hcl Hac Hv.
  exact (AliasFacts.destroy_legal_spec T g prot sched p v Hcl Hac Hv).
Qed.

Lemma destroy_legal_iff_witness :
  closed chain_g /\ acyc chain_g /\ 0 < length chain_g /\
  (Alias.destroy_legal view_table chain_g (fun _ => false) chain_order 4 0 = true <->
   (forall w, Alias.alias view_table chain_g w 0 -> w <> 0 ->
      ~ Alias.required chain_g chain_order 4 w) /\ false = false).
Proof.
  assert (Hcl : closed chain_g) by (apply GraphFacts.closed_check; vm_compute; reflexivity).
  assert (Hac : acyc chain_g)
    by (apply (GraphFacts.acyc_of_rank_check chain_g chain_rank); vm_compute; reflexivity).
  assert (Hv : 0 < length chain_g) by (vm_compute; lia).
  split; [exact Hcl|]. split; [exact Hac|]. split; [exact Hv|].
  exact (destroy_legal_iff view_table chain_g (fun _ => false) chain_order 4 0 Hcl Hac Hv).
Defined.

(** The write on [x] by [y = f(x)] is refused: its view [xv] is still read
    by [z], which runs later. *)
Example destroy_refused_example :
  Alias.destroy_legal view_table alias_g (fun _ => false) [0; 1; 2; 3] 2 0 = false.
Proof. reflexivity. Qed.

(** After the rewrites, the in-place write on [x] is refused: the view of a
    view of [x] is still read by [z], which runs later. *)
Example destroy_refused_after_rewrite :
  Alias.destroy_legal view_table chain_g (fun _ => false) chain_order 4 0 = false.
Proof. reflexivity. Qed.

(** C7: on a graph without cycles whose inputs all refer to its nodes,
    [infer_reuse_pattern] at a node returns exactly the inputs whose
    storage belongs to this execution (no variable sharing it, through
    views or in-place outputs, is protected) and is not alive beyond the
    node; and the destructive-op-enabling stage only installs an in-place
    variant overwriting such an input. *)
Theorem infer_reuse_pattern_spec : forall T g prot outs sched,
  closed g -> acyc g ->
  (forall p c op ins x, nth_error sched p = Some c -> nth_error g c = Some (Apply op ins) ->
     (In x (Alias.infer_reuse_pattern T g prot outs sched p) <->
      In x ins /\ Alias.uniquely_owned T g prot x /\
      ~ Alias.alive_beyond T g outs sched p x)) /\
  (forall inplace_of c n,
     nth_error (Pipeline.enable_inplace T inplace_of g prot outs sched) c = Some n ->
     nth_error g c <> Some n ->
     exists p op op' i ins x,
       nth_error sched p = Some c /\ nth_error g c = Some (Apply op ins) /\
       inplace_of op = Some (op', i) /\ nth_error ins i = Some x /\ n = Apply op' ins /\
       In x (Alias.infer_reuse_pattern T g prot outs sched p) /\
       Alias.uniquely_owned T g prot x /\ ~ Alias.alive_beyond T g outs sched p x).
Proof.
  intros T g prot outs sched Hcl Hac. split.
  - intros p c op ins x Hs Hg.
    exact (AliasFacts.infer_reuse_spec T g prot outs sched p c op ins x Hcl Hac Hs Hg).
  - intros inplace_of c n Hn Hne.
    destruct (DestroyFacts.enable_from_inv T inplace_of g prot outs sched sched 0 g
                (fun k c Hk => Hk) (fun c n H => or_introl H) c n Hn) as [H|H];
      [contradiction|].
    destruct H as [p [op [op' [i [ins [x [Hs [Hg [Hi [Hx [Hin ->]]]]]]]]]]].
    exists p, op, op', i, ins, x. repeat split; try assumption.
    + apply (AliasFacts.infer_reuse_spec T g prot outs sched p c op ins x Hcl Hac Hs Hg), Hin.
    + apply (AliasFacts.infer_reuse_spec T g prot outs sched p c op ins x Hcl Hac Hs Hg), Hin.
Qed.

Lemma infer_reuse_pattern_spec_witness :
  closed chain_g /\ acyc chain_g /\
  Alias.infer_reuse_pattern view_table chain_g (fun x => x =? 0) [2] chain_order 5 = [] /\
  (In 5 (Alias.infer_reuse_pattern view_table chain_g (fun x => x =? 0) [2] chain_order 5)
   <-> In 5 [5] /\ Alias.uniquely_owned view_table chain_g (fun x => x =? 0) 5 /\
       ~ Alias.alive_beyond view_table chain_g [2] chain_order 5 5).
Proof.
  assert (Hcl : closed chain_g) by (apply GraphFacts.closed_check; vm_compute; reflexivity).
  assert (Hac : acyc chain_g)
    by (apply (GraphFacts.acyc_of_rank_check chain_g chain_rank); vm_compute; reflexivity).
  split; [exact Hcl|]. split; [exact Hac|]. split; [vm_compute; reflexivity|].
  apply (proj1 (infer_reuse_pattern_spec view_table chain_g (fun x => x =? 0) [2]
                  chain_order Hcl Hac) 5 2 3 [5] 5); vm_compute; reflexivity.
Defined.

(** The in-place stage turns [u = t + t] into its in-place variant and
    leaves [y = x + x] alone. *)
Example enable_inplace_example :
  Pipeline.enable_inplace view_table reuse_inplace reuse_g (fun x => x =? 0) [1; 3] [0; 1; 2; 3]
  = [Input 0; Apply 4 [0; 0]; Apply 6 [0; 0]; Apply 5 [2; 2]].
Proof. reflexivity. Qed.



(** C4: after [insert_deepcopy] on a graph without cycles whose inputs
    all refer to its nodes, an output sharing its storage (through views
    or in-place outputs) with a declared input not marked
    borrow-on-output-ok, or with shared storage, is replaced by a
    deep-copy node reading it; an output sharing its storage with a
    borrow-on-output-ok input is returned as it is. *)
Theorem insert_deepcopy_protects : forall T deep_copy_op g inputs outs,
  closed g -> acyc g ->
  (forall x k, Pipeline.kind_of inputs x = Some k -> exists n, nth_error g x = Some (Input n)) ->
  forall i o x, nth_error outs i = Some o -> Alias.storage_alias T g o x ->
  (forall m, Pipeline.kind_of inputs x = Some (Pipeline.Declared false m) ->
     exists h, nth_error (snd (Compile.insert_deepcopy T deep_copy_op g inputs outs)) i = Some h /\
       nth_error (fst (Compile.insert_deepcopy T deep_copy_op g inputs outs)) h
       = Some (Apply deep_copy_op [o])) /\
  (Pipeline.kind_of inputs x = Some Pipeline.SharedIn ->
     exists h, nth_error (snd (Compile.insert_deepcopy T deep_copy_op g inputs outs)) i = Some h /\
       nth_error (fst (Compile.insert_deepcopy T deep_copy_op g inputs outs)) h
       = Some (Apply deep_copy_op [o])) /\
  (forall m, Pipeline.kind_of inputs x = Some (Pipeline.Declared true m) ->
     nth_error (snd (Compile.insert_deepcopy T deep_copy_op g inputs outs)) i = Some o).
Proof.
  intros T dc g inputs outs Hcl Hac Hin i o x Ho Ha.
  apply (AliasFacts.storage_iff_root T g o x Hac) in Ha.
  unfold Compile.insert_deepcopy.
  destruct (Compile.dc_outputs T dc g inputs (length g) outs) as [ns hs] eqn:E. simpl.
  destruct (CompileFacts.dc_outputs_spec T dc g inputs outs (length g) ns hs E i o Ho)
    as [Hcopy Hkeep].
  assert (Hroot : forall k, Pipeline.kind_of inputs x = Some k ->
            Pipeline.kind_of inputs (Alias.storage_root T g o) = Some k).
  { intros k Hk. destruct (Hin x k Hk) as [n Hn].
    rewrite Ha, (CompileFacts.root_of_input T g x n Hn). exact Hk. }
  assert (Hcopied : Compile.needs_copy T g inputs o = true ->
            exists h, nth_error hs i = Some h /\ nth_error (g ++ ns) h = Some (Apply dc [o])).
  { intros Hn. destruct (Hcopy Hn) as [h [Hh [Hb Hns]]]. exists h. split; [exact Hh|].
    rewrite nth_error_app2 by lia. exact Hns. }
  split; [|split].
  - intros m Hk. apply Hcopied. unfold Compile.needs_copy. rewrite (Hroot _ Hk). reflexivity.
  - intros Hk. apply Hcopied. unfold Compile.needs_copy. rewrite (Hroot _ Hk). reflexivity.
  - intros m Hk. apply Hkeep. unfold Compile.needs_copy. rewrite (Hroot _ Hk). reflexivity.
Qed.

(** The in-place output [6] of the rewritten graph shares the storage of
    the declared input [x]: it is copied. *)
Lemma insert_deepcopy_protects_witness :
  closed chain_g /\ acyc chain_g /\
  exists h, nth_error (snd (Compile.insert_deepcopy view_table 9 chain_g copy_inputs [5; 6])) 1
              = Some h /\
    nth_error (fst (Compile.insert_deepcopy view_table 9 chain_g copy_inputs [5; 6])) h
    = Some (Apply 9 [6]).
Proof.
  assert (Hcl : closed chain_g) by (apply GraphFacts.closed_check; vm_compute; reflexivity).
  assert (Hac : acyc chain_g)
    by (apply (GraphFacts.acyc_of_rank_check chain_g chain_rank); vm_compute; reflexivity).
  split; [exact Hcl|]. split; [exact Hac|].
  refine (proj1 (insert_deepcopy_protects view_table 9 chain_g copy_inputs [5; 6] Hcl Hac _
                   1 6 0 eq_refl _) false eq_refl).
  - intros x k Hk. destruct x as [|x]; [exists 0; reflexivity|discriminate].
  - apply rst_sym, rst_step. reflexivity.
Defined.

(** C9: a declared input no output depends on makes the compilation step
    fail with [UnusedInputError] under the [Raise] policy, before any
    callable exists; under the [Warn] policy the compilation step never
    fails with it and reports a warning for that input instead. *)
Theorem unused_input_checked_at_compile_time :
  forall T deep_copy_op schedule stages g inputs outs x b m,
  In (x, Pipeline.Declared b m) inputs -> ~ Compile.used g outs x ->
  Compile.compile T deep_copy_op schedule stages (Compile.mkConfig g inputs outs Compile.Raise)
    = Pipeline.Err Pipeline.UnusedInputError /\
  (forall r ws, Compile.compile T deep_copy_op schedule stages
                  (Compile.mkConfig g inputs outs Compile.Warn) = Pipeline.Ok r ws ->
     In (Pipeline.UnusedInputWarning x) ws) /\
  Compile.compile T deep_copy_op schedule stages (Compile.mkConfig g inputs outs Compile.Warn)
    <> Pipeline.Err Pipeline.UnusedInputError.
Proof.
  intros T dc schedule stages g inputs outs x b m Hin Hu.
  pose proof (CompileFacts.unused_listed g inputs outs x b m Hin Hu) as Hl.
  unfold Compile.compile, Compile.check_unused. simpl.
  destruct (filter (fun x => negb (Compile.usedb g outs (length g) x))
              (Compile.declared inputs)) as [|y ys] eqn:E; [destruct Hl|].
  split; [reflexivity|]. split.
  - intros r ws H.
    destruct (Pipeline.optimize T schedule (Pipeline.protected inputs) stages g); [|discriminate].
    match type of H with Pipeline.Ok _ (?l ++ ?w) = _ =>
      injection H as _ <-; change (In (Pipeline.UnusedInputWarning x) (l ++ w)) end.
    apply in_or_app. left. apply in_map. exact Hl.
  - destruct (Pipeline.optimize T schedule (Pipeline.protected inputs) stages g) eqn:Eo;
      [discriminate|].
    intros H. inversion H; subst. apply CompileFacts.optimize_err in Eo. discriminate.
Qed.

(** Input [z] is declared but the only output is [y = f(x)]. *)
Lemma unused_input_checked_at_compile_time_witness :
  In (1, Pipeline.Declared false false)
     [(0, Pipeline.Declared false false); (1, Pipeline.Declared false false)] /\
  Compile.compile view_table 9 handle_order [] (Compile.mkConfig [Input 0; Input 1; Apply 3 [0]]
     [(0, Pipeline.Declared false false); (1, Pipeline.Declared false false)] [2] Compile.Raise)
  = Pipeline.Err Pipeline.UnusedInputError.
Proof.
  assert (Hin : In (1, Pipeline.Declared false false)
     [(0, Pipeline.Declared false false); (1, Pipeline.Declared false false)])
    by (right; left; reflexivity).
  split; [exact Hin|].
  refine (proj1 (unused_input_checked_at_compile_time view_table 9 handle_order []
     [Input 0; Input 1; Apply 3 [0]] _ [2] 1 false false Hin _)).
  intros [o [[<-|[]] Hr]]. apply clos_rt_rtn1 in Hr.
  inversion Hr as [|y z He Hr']; subst.
  destruct He as [op [ins [Hn Hy]]]. simpl in Hn. inversion Hn; subst.
  destruct Hy as [<-|[]].
  inversion Hr' as [|y' z' He' _]; subst.
  destruct He' as [op' [ins' [Hn' _]]]. discriminate.
Defined.

(** C6: whatever execution order the linker chooses, a call returns the
    outputs and writes the shared-value updates computed from the values
    all shared values had before the call: an update or output reading a
    shared value [A] never sees [A]'s value updated by the same call. *)
Theorem call_reads_pre_call_values : forall V sem dflt f sched store args,
  captured (Shared.fn_graph f) -> Shared.valid_schedule (Shared.fn_graph f) sched ->
  (forall o, In o (Shared.fn_outputs f) -> o < length (Shared.fn_graph f)) ->
  (forall s u, In (s, u) (Shared.fn_updates f) -> u < length (Shared.fn_graph f)) ->
  Shared.call V sem dflt f sched store args =
  Some (map (Shared.value_pre V sem dflt f store args) (Shared.fn_outputs f),
        Shared.commit V store
          (combine (map fst (Shared.fn_updates f))
             (map (Shared.value_pre V sem dflt f store args) (map snd (Shared.fn_updates f))))).
Proof.
  intros V sem dflt f sched store args Hc Hv Ho Hu.
  destruct (SharedFacts.run_spec V sem dflt f store args sched Hc Hv sched [] (fun _ => None)
              eq_refl (fun x H => match H with end)) as [e [Hrun He]].
  destruct Hv as [Hall _].
  unfold Shared.call. rewrite Hrun.
  rewrite (SharedFacts.lookup_all_map V sem dflt f store args e (Shared.fn_outputs f))
    by (intros o Hin; apply He, Hall, Ho, Hin).
  rewrite (SharedFacts.lookup_all_map V sem dflt f store args e (map snd (Shared.fn_updates f))).
  - reflexivity.
  - intros u Hin. apply in_map_iff in Hin as [[s u'] [Hsu Hin]]. simpl in Hsu. subst u'.
    apply He, Hall. exact (Hu s u Hin).
Qed.

Lemma call_reads_pre_call_values_witness :
  captured (Shared.fn_graph shared_fn) /\
  Shared.call nat sum_sem 0 shared_fn [0; 1; 2; 3] shared_store [] =
  Some (map (Shared.value_pre nat sum_sem 0 shared_fn shared_store []) [0],
        Shared.commit nat shared_store
          (combine [0; 1] (map (Shared.value_pre nat sum_sem 0 shared_fn shared_store []) [2; 3]))).
Proof.
  assert (Hc : captured (Shared.fn_graph shared_fn))
    by (apply GraphFacts.capturedb_captured; reflexivity).
  split; [exact Hc|].
  apply (call_reads_pre_call_values nat sum_sem 0 shared_fn [0; 1; 2; 3] shared_store []
           Hc (SharedFacts.handle_order_valid _ Hc)).
  - intros o [<-|[]]. simpl. lia.
  - intros s u [H|[H|[]]]; inversion H; subst; simpl; lia.
Defined.

(** In either execution order, the returned [A] is 5, [A] becomes 6 and
    [B] becomes [5 + 10], not [6 + 10]. *)
Example shared_call_example :
  forall sched, sched = [0; 1; 2; 3] \/ sched = [1; 0; 3; 2] ->
  match Shared.call nat sum_sem 0 shared_fn sched shared_store [] with
  | Some (outs, st) => outs = [5] /\ st 0 = 6 /\ st 1 = 15
  | None => False
  end.
Proof. intros sched [-> | ->]; vm_compute; auto. Qed.

(** C10: provided each submodule defines the names imported from it,
    executing [pytensor/compile/__init__.py] succeeds and binds every
    re-exported name, among them the names of the public surface, at the
    package's top level, to the object of its defining submodule. *)
Theorem package_binds_public_names : forall exports,
  (forall m names n, In (m, names) Init.init_py -> In n names -> In n (exports m)) ->
  exists ns, Init.exec_module exports [] Init.init_py = Some ns /\
    (forall m names n, In (m, names) Init.init_py -> In n names ->
       Init.ns_lookup ns n = Some (m, n)) /\
    (forall n, In n Init.public_names -> exists m names,
       In (m, names) Init.init_py /\ In n names /\ Init.ns_lookup ns n = Some (m, n)).
Proof.
  intros exports H. exists (Init.bind_all [] Init.init_py).
  split; [apply InitFacts.exec_module_ok, H|].
  assert (Hall : forallb (fun '(m, names) =>
             forallb (fun n => Init.binding_eqb
                       (Init.ns_lookup (Init.bind_all [] Init.init_py) n) m n) names)
             Init.init_py = true) by (vm_compute; reflexivity).
  assert (Hall' : forall m names n, In (m, names) Init.init_py -> In n names ->
            Init.ns_lookup (Init.bind_all [] Init.init_py) n = Some (m, n)).
  { intros m names n Hin Hn. rewrite forallb_forall in Hall.
    specialize (Hall (m, names) Hin). simpl in Hall. rewrite forallb_forall in Hall.
    apply InitFacts.binding_eqb_true, Hall, Hn. }
  split; [exact Hall'|].
  assert (Hpub : forallb (fun n => existsb (fun '(m, names) =>
             existsb (String.eqb n) names) Init.init_py) Init.public_names = true)
    by (vm_compute; reflexivity).
  intros n Hn. rewrite forallb_forall in Hpub. specialize (Hpub n Hn).
  apply existsb_exists in Hpub as [[m names] [Hin Hex]].
  apply existsb_exists in Hex as [n' [Hn' Heq]]. apply String.eqb_eq in Heq. subst n'.
  exists m, names. split; [exact Hin|]. split; [exact Hn'|]. exact (Hall' m names n Hin Hn').
Qed.

Lemma package_binds_public_names_witness :
  exists ns, Init.exec_module init_exports [] Init.init_py = Some ns /\
    (forall m names n, In (m, names) Init.init_py -> In n names ->
       Init.ns_lookup ns n = Some (m, n)) /\
    (forall n, In n Init.public_names -> exists m names,
       In (m, names) Init.init_py /\ In n names /\ Init.ns_lookup ns n = Some (m, n)).
Proof.
  apply package_binds_public_names. intros m names n Hin Hn.
  unfold init_exports. apply in_flat_map. exists (m, names). split; [exact Hin|].
  rewrite String.eqb_refl. exact Hn.
Defined.

End Claims.

(** * Further properties of [pytensor/compile/__init__.py] *)

Module Extras.
Import Package PackageFacts.
Import String.StringSyntax.
Local Open Scope string_scope.

(** When every imported name exists and the submodules loaded on the way
    have names other than the imported ones, running [__init__.py] binds
    each imported name to the attribute of its module, binds the seven
    submodules [function], [io], [mode], [monitormode], [ops], [profiling]
    and [sharedvalue] (and any other loaded submodule) to their module
    objects, and leaves every other name of the namespace as it was. *)
Theorem init_namespace : forall exports loads ns,
  (forall m names n, In (m, names) Init.init_py -> In n names -> In n (exports m)) ->
  (forall m c, In c (loads m) -> ~ In c (map snd (imports Init.init_py))) ->
  exists ns', exec_module exports loads package ns Init.init_py = Some ns' /\
    (forall m n, In (m, n) (imports Init.init_py) -> lookup ns' n = Some (Attr m n)) /\
    (forall c, In c init_submodules \/ In c (flat_map (fun '(m, _) => loads m) Init.init_py) ->
       lookup ns' c = Some (Submodule (String.append package (String.append "." c)))) /\
    (forall n, ~ In n (map snd (imports Init.init_py)) -> ~ In n init_submodules ->
       ~ In n (flat_map (fun '(m, _) => loads m) Init.init_py) -> lookup ns' n = lookup ns n).
Proof. exact init_exec_facts. Qed.

Lemma init_namespace_witness :
  exists ns', exec_module Scenarios.init_exports (fun _ => []) package package_dunders Init.init_py = Some ns' /\
    (forall m n, In (m, n) (imports Init.init_py) -> lookup ns' n = Some (Attr m n)) /\
    (forall c, In c init_submodules \/ In c (flat_map (fun '(m, _) => @nil String.string) Init.init_py) ->
       lookup ns' c = Some (Submodule (String.append package (String.append "." c)))) /\
    (forall n, ~ In n (map snd (imports Init.init_py)) -> ~ In n init_submodules ->
       ~ In n (flat_map (fun '(m, _) => @nil String.string) Init.init_py) ->
       lookup ns' n = lookup package_dunders n).
Proof.
  apply init_namespace.
  - intros m names n Hin Hn. unfold Scenarios.init_exports. apply in_flat_map.
    exists (m, names). split; [exact Hin|]. rewrite String.eqb_refl. exact Hn.
  - intros m c [].
Defined.

(** The package's bindings do not depend on how its import statements are
    ordered or grouped: any statements importing the same (module, name)
    pairs, each naming at least one name as Python's syntax requires, give
    the same namespace. *)
Theorem init_import_order_irrelevant : forall exports loads ns stmts,
  (forall m names n, In (m, names) Init.init_py -> In n names -> In n (exports m)) ->
  (forall m c, In c (loads m) -> ~ In c (map snd (imports Init.init_py))) ->
  Permutation.Permutation (imports stmts) (imports Init.init_py) ->
  (forall m names, In (m, names) stmts -> names <> []) ->
  exists ns1 ns2, exec_module exports loads package ns Init.init_py = Some ns1 /\
    exec_module exports loads package ns stmts = Some ns2 /\
    forall n, lookup ns1 n = lookup ns2 n.
Proof.
  intros exports loads ns stmts Hex Hl Hp Hne.
  assert (Hp' : Permutation.Permutation (map snd (imports stmts)) (map snd (imports Init.init_py)))
    by (apply Permutation.Permutation_map, Hp).
  assert (Hsub : forall c, In c (submodules_of package loads stmts) <->
                           In c (submodules_of package loads Init.init_py)).
  { intros c. rewrite (submodules_iff _ _ _ _ Hne), (submodules_iff _ _ _ _ init_nonempty).
    split; intros (m & n & Hi & Hc); exists m, n; split; try exact Hc.
    - apply (Permutation.Permutation_in _ Hp Hi).
    - apply (Permutation.Permutation_in _ (Permutation.Permutation_sym Hp) Hi). }
  assert (Hdis : forall c, In c (submodules_of package loads stmts) -> ~ In c (map snd (imports stmts))).
  { intros c Hc Hi. apply (init_disjoint loads Hl c); [apply Hsub, Hc|].
    apply (Permutation.Permutation_in _ Hp' Hi). }
  assert (Hnd : NoDup (map snd (imports stmts)))
    by (apply (Permutation.Permutation_NoDup (Permutation.Permutation_sym Hp')), init_nodup).
  destruct (exec_some exports loads package Init.init_py ns (init_exports_ok exports Hex)) as [ns1 E1].
  destruct (exec_some exports loads package stmts ns) as [ns2 E2].
  { intros m n Hi. apply (init_exports_ok exports Hex), (Permutation.Permutation_in _ Hp Hi). }
  exists ns1, ns2. split; [exact E1|]. split; [exact E2|]. intros n.
  destruct (in_dec String.string_dec n (map snd (imports Init.init_py))) as [Hi|Hi].
  - apply in_map_iff in Hi as [[m n'] [Heq Hi]]. simpl in Heq. subst n'.
    rewrite (exec_attr _ _ _ _ _ _ m n E1 init_nodup (init_disjoint loads Hl) Hi).
    symmetry. apply (exec_attr _ _ _ _ _ _ m n E2 Hnd Hdis).
    apply (Permutation.Permutation_in _ (Permutation.Permutation_sym Hp) Hi).
  - assert (Hi2 : ~ In n (map snd (imports stmts)))
      by (intro H; apply Hi, (Permutation.Permutation_in _ Hp' H)).
    destruct (in_dec String.string_dec n (submodules_of package loads Init.init_py)) as [Hs|Hs].
    + rewrite (exec_submodule _ _ _ _ _ _ n E1 Hs Hi).
      symmetry. apply (exec_submodule _ _ _ _ _ _ n E2); [apply Hsub, Hs|exact Hi2].
    + rewrite (exec_frame _ _ _ _ _ _ n E1 Hi Hs).
      symmetry. apply (exec_frame _ _ _ _ _ _ n E2 Hi2). intro H. apply Hs, Hsub, H.
Qed.

Lemma init_import_order_irrelevant_witness :
  exists ns1 ns2,
    exec_module Scenarios.init_exports (fun _ => []) package package_dunders Init.init_py = Some ns1 /\
    exec_module Scenarios.init_exports (fun _ => []) package package_dunders
      (map (fun '(m, n) => (m, [n])) (imports Init.init_py)) = Some ns2 /\
    forall n, lookup ns1 n = lookup ns2 n.
Proof.
  apply init_import_order_irrelevant.
  - intros m names n Hin Hn. unfold Scenarios.init_exports. apply in_flat_map.
    exists (m, names). split; [exact Hin|]. rewrite String.eqb_refl. exact Hn.
  - intros m c [].
  - replace (imports (map (fun '(m, n) => (m, [n])) (imports Init.init_py)))
      with (imports Init.init_py) by (vm_compute; reflexivity).
    apply Permutation.Permutation_refl.
  - intros m names H. apply in_map_iff in H as [[m' n] [Heq _]].
    injection Heq as _ <-. discriminate.
Defined.

(** No [__all__] is defined by [__init__.py]: starting from a namespace
    holding only private names and no [__all__] (what the import system
    sets up), [from pytensor.compile import *] takes exactly the imported
    names, bound to their modules' attributes, and the package's public
    submodules, among them [io], [mode], [ops] and [function], bound to
    the module objects. *)
Theorem init_star_import : forall exports loads ns,
  (forall m names n, In (m, names) Init.init_py -> In n names -> In n (exports m)) ->
  (forall m c, In c (loads m) -> ~ In c (map snd (imports Init.init_py))) ->
  (forall m c, In c (loads m) -> is_public c = true) ->
  (forall n, In n (map fst ns) -> is_public n = false) ->
  lookup ns "__all__" = None ->
  exists ns' l, exec_module exports loads package ns Init.init_py = Some ns' /\
    star_import ns' = Some l /\
    forall n v, In (n, v) l <->
      (exists m, In (m, n) (imports Init.init_py) /\ v = Attr m n) \/
      ((In n init_submodules \/ In n (flat_map (fun '(m, _) => loads m) Init.init_py)) /\
       v = Submodule (String.append package (String.append "." n))).
Proof.
  intros exports loads ns Hex Hl Hpub Hpriv Hall.
  destruct (init_exec_facts exports loads ns Hex Hl) as (ns' & E & Hattr & Hsub & Hframe).
  assert (Hall' : lookup ns' "__all__" = None).
  { rewrite (Hframe "__all__" all_not_imported); [exact Hall| |].
    - intro H. apply init_submodules_public in H. vm_compute in H. discriminate.
    - intro H. apply in_flat_map in H as [[m names] [_ H]].
      apply Hpub in H. vm_compute in H. discriminate. }
  assert (Hstar : star_import ns' = Some (flat_map (fun n => match lookup ns' n with
                    Some v => [(n, v)] | None => [] end)
                    (filter is_public (nodup String.string_dec (map fst ns'))))).
  { unfold star_import. rewrite Hall'. reflexivity. }
  eexists ns', _. split; [exact E|]. split; [exact Hstar|].
  intros n v. rewrite (star_import_in _ _ n v Hstar). split.
  - intros [Hp Hv].
    destruct (in_dec String.string_dec n (map snd (imports Init.init_py))) as [Hi|Hi].
    + left. apply in_map_iff in Hi as [[m n'] [Heq Hi]]. simpl in Heq. subst n'.
      exists m. split; [exact Hi|]. rewrite (Hattr m n Hi) in Hv. injection Hv as <-. reflexivity.
    + destruct (in_dec String.string_dec n init_submodules) as [Hs|Hs].
      { right. split; [left; exact Hs|]. rewrite (Hsub n (or_introl Hs)) in Hv.
        injection Hv as <-. reflexivity. }
      destruct (in_dec String.string_dec n (flat_map (fun '(m, _) => loads m) Init.init_py)) as [Hd|Hd].
      { right. split; [right; exact Hd|]. rewrite (Hsub n (or_intror Hd)) in Hv.
        injection Hv as <-. reflexivity. }
      exfalso. rewrite (Hframe n Hi Hs Hd) in Hv.
      assert (Hn : In n (map fst ns))
        by (apply in_map_iff; exists (n, v); split; [reflexivity|apply lookup_in, Hv]).
      apply Hpriv in Hn. congruence.
  - intros [(m & Hi & ->)|[Hs ->]].
    + split; [apply init_imports_public, in_map_iff; exists (m, n); split; [reflexivity|exact Hi]|].
      apply Hattr, Hi.
    + split; [|apply Hsub, Hs]. destruct Hs as [Hs|Hs]; [apply init_submodules_public, Hs|].
      apply in_flat_map in Hs as [[m names] [_ Hs]]. apply (Hpub m n Hs).
Qed.

Lemma init_star_import_witness :
  exists ns' l,
    exec_module Scenarios.init_exports (fun _ => []) package package_dunders Init.init_py = Some ns' /\
    star_import ns' = Some l /\
    forall n v, In (n, v) l <->
      (exists m, In (m, n) (imports Init.init_py) /\ v = Attr m n) \/
      ((In n init_submodules \/ In n (flat_map (fun '(m, _) => @nil String.string) Init.init_py)) /\
       v = Submodule (String.append package (String.append "." n))).
Proof.
  apply init_star_import.
  - intros m names n Hin Hn. unfold Scenarios.init_exports. apply in_flat_map.
    exists (m, names). split; [exact Hin|]. rewrite String.eqb_refl. exact Hn.
  - intros m c [].
  - intros m c [].
  - intros n H. simpl in H.
    repeat (destruct H as [H|H]; [subst n; reflexivity|]). contradiction.
  - reflexivity.
Defined.

End Extras.
